(** * Simple auth manager: role hierarchy, authorization decision and
      password bootstrap

    A shallow embedding of
    [airflow/auth/managers/simple/simple_auth_manager.py]: the roles, the
    decision [_is_authorized] and the [is_authorized_*] methods, the current
    user, the configured users, the password file and [init], and the
    tokens of [serialize_user] and [deserialize_user].

    Python values are modelled as follows.
    - [str] is [string]; text beyond ASCII is its UTF-8 bytes.
    - [int] is [Z].
    - [dict[str, str]] is [gmap string string], a [set] of [str] is
      [gset string].
    - A call that may raise returns a [result].
    - [str.upper] and the generator behind [random] belong to the runtime
      and are parameters of the sections that use them. *)

From stdpp Require Import gmap strings list fin_maps.
From Stdlib Require Import ZArith Ascii.

#[local] Set Warnings "-clear-no-such-hyp".

(** ** Results of calls that may raise *)

Inductive exn : Type :=
| KeyError (key : string)
| IndexError.

Inductive result (A : Type) : Type :=
| Return (a : A)
| Raise (e : exn).

Arguments Return {A} a.
Arguments Raise {A} e.

#[global] Instance result_bind : MBind result := λ A B k c,
  match c with
  | Return a => k a
  | Raise e => Raise e
  end.

(** ** class SimpleAuthManagerRole *)

(** The enumeration has four members, each a [(name, order)] named tuple. *)
Inductive SimpleAuthManagerRole : Type :=
| VIEWER
| USER
| OP
| ADMIN.

#[global] Instance SimpleAuthManagerRole_eq_dec :
  EqDecision SimpleAuthManagerRole.
Proof. solve_decision. Defined.

Definition name (r : SimpleAuthManagerRole) : string :=
  match r with
  | VIEWER => "VIEWER"
  | USER => "USER"
  | OP => "OP"
  | ADMIN => "ADMIN"
  end.

Definition order (r : SimpleAuthManagerRole) : Z :=
  match r with
  | VIEWER => 0
  | USER => 1
  | OP => 2
  | ADMIN => 3
  end%Z.

(** The members in definition order, as iterating the class yields them. *)
Definition members : list SimpleAuthManagerRole := [VIEWER; USER; OP; ADMIN].

(** [role == other]: the members are tuples and compare as tuples. *)
Definition role_eqb (r1 r2 : SimpleAuthManagerRole) : bool :=
  String.eqb (name r1) (name r2) && Z.eqb (order r1) (order r2).

(** [SimpleAuthManagerRole[key]]: the member called [key], else [KeyError]. *)
Definition getitem (key : string) : result SimpleAuthManagerRole :=
  match List.find (fun r => String.eqb (name r) key) members with
  | Some r => Return r
  | None => Raise (KeyError key)
  end.

(** [bool(role)]: a member is a tuple of two fields, and a tuple is true
    when it is not empty. *)
Definition role_fields (r : SimpleAuthManagerRole) : list (string + Z) :=
  [inl (name r); inr (order r)].

Definition role_truthy (r : SimpleAuthManagerRole) : bool :=
  negb (Nat.eqb (List.length (role_fields r)) 0).

(** ** Callers *)

(** Modelled from the spec: the class [SimpleAuthManagerUser] of
    [airflow/auth/managers/simple/user.py] is not part of the sources.  The
    caller identity holds a username and a role name, and [get_role] returns
    the role name; the role is optional because [_is_authorized] tests it
    for truth.  An instance defines neither [__bool__] nor [__len__], so it
    is always true. *)
Record SimpleAuthManagerUser : Type := {
  username : string;
  role : option string
}.

Definition get_role (user : SimpleAuthManagerUser) : option string :=
  role user.

(** [bool(s)] for a string. *)
Definition str_truthy (s : string) : bool :=
  negb (Nat.eqb (String.length s) 0).

(** What the manager reads from the web layer and the configuration.
    [session_user] is [None] when the session has no key ["user"], and is
    the value stored under the key otherwise; the value is a user or
    Python's [None].  The flag is
    [conf.getboolean("core", "simple_auth_manager_all_admins")]. *)
Record environment : Type := {
  session_user : option (option SimpleAuthManagerUser);
  simple_auth_manager_all_admins : bool
}.

(** ["user" in session or conf.getboolean(...)]: the test is on the key,
    not on the value under it. *)
Definition is_logged_in (env : environment) : bool :=
  match session_user env with
  | Some _ => true
  | None => simple_auth_manager_all_admins env
  end.

(** [session["user"]] is read only when [is_logged_in] holds with the flag
    off, so the key is there and the last branch is not reached. *)
Definition get_user (env : environment) : option SimpleAuthManagerUser :=
  if negb (is_logged_in env) then None
  else if simple_auth_manager_all_admins env
       then Some {| username := "anonymous"; role := Some "admin" |}
       else match session_user env with
            | Some value => value
            | None => None
            end.

(** [user or self.get_user()]: the caller a decision is made for. *)
Definition user_or_current (env : environment)
    (user : option SimpleAuthManagerUser) : option SimpleAuthManagerUser :=
  match user with
  | Some u => Some u
  | None => get_user env
  end.

(** ** The authorization decision *)

Section Authorization.

(** [str.upper] of the Python runtime. *)
Variable upper : string → string.

Definition _is_authorized (env : environment) (method : string)
    (allow_role : SimpleAuthManagerRole)
    (allow_get_role : option SimpleAuthManagerRole)
    (user : option SimpleAuthManagerUser) : result bool :=
  let user := user_or_current env user in
  match user with
  | None => Return false
  | Some user =>
      match get_role user with
      | None => Return false
      | Some user_role =>
          if negb (str_truthy user_role) then Return false
          else
            let role_str := upper user_role in
            role ← getitem role_str;
            if role_eqb role ADMIN then Return true
            else
              let allow_get_role :=
                match allow_get_role with
                | Some r => if role_truthy r then r else allow_role
                | None => allow_role
                end in
              if String.eqb method "GET"
              then Return (order role >=? order allow_get_role)%Z
              else Return (order role >=? order allow_role)%Z
      end
  end.

Definition is_authorized_configuration (env : environment) (method : string)
    (user : option SimpleAuthManagerUser) : result bool :=
  _is_authorized env method OP None user.

Definition is_authorized_connection (env : environment) (method : string)
    (user : option SimpleAuthManagerUser) : result bool :=
  _is_authorized env method OP None user.

Definition is_authorized_dag (env : environment) (method : string)
    (user : option SimpleAuthManagerUser) : result bool :=
  _is_authorized env method USER (Some VIEWER) user.

Definition is_authorized_asset (env : environment) (method : string)
    (user : option SimpleAuthManagerUser) : result bool :=
  _is_authorized env method OP (Some VIEWER) user.

Definition is_authorized_pool (env : environment) (method : string)
    (user : option SimpleAuthManagerUser) : result bool :=
  _is_authorized env method OP (Some VIEWER) user.

Definition is_authorized_variable (env : environment) (method : string)
    (user : option SimpleAuthManagerUser) : result bool :=
  _is_authorized env method OP None user.

Definition is_authorized_view (env : environment) (access_view : string)
    (user : option SimpleAuthManagerUser) : result bool :=
  _is_authorized env "GET" VIEWER None user.

Definition is_authorized_custom_view (env : environment) (method : string)
    (resource_name : string) (user : option SimpleAuthManagerUser)
    : result bool :=
  _is_authorized env "GET" VIEWER None user.

End Authorization.

(** [str.upper] on ASCII text: the letters [a]-[z] move to [A]-[Z], every
    other character stays. *)
Definition upper_char (c : Ascii.ascii) : Ascii.ascii :=
  let n := nat_of_ascii c in
  if Nat.leb 97 n && Nat.leb n 122 then ascii_of_nat (n - 32)%nat else c.

Fixpoint upper_ascii (s : string) : string :=
  match s with
  | EmptyString => EmptyString
  | String c s' => String (upper_char c) (upper_ascii s')
  end.

(** ** Password bootstrap *)

(** The characters of a string, in order. *)
Abbreviation chars := String.list_ascii_of_string.

(** The characters [_generate_password] draws from. *)
Definition password_chars : string :=
  "abcdefghkmnpqrstuvwxyzABCDEFGHKMNPQRSTUVWXYZ23456789".

(** One configured user, [{"username": username, "role": role}], an item of
    the list [get_users()] returns. *)
Record user_dict : Type := {
  dict_username : string;
  dict_role : string
}.

(** [d[key]] on a dictionary. *)
Definition dict_getitem (d : gmap string string) (key : string)
    : result string :=
  match d !! key with
  | Some v => Return v
  | None => Raise (KeyError key)
  end.

(** The message [init] hands to [_print_output] for one user. *)
Definition password_message (username password : string) : string :=
  "Password for user '" +:+ username +:+ "': " +:+ password.

Section Bootstrap.

(** The state of the generator behind the module [random]. *)
Variable rng : Type.

(** [floor(random() * n)], the index [random.choices] draws from a
    population of [n] items, and the state the draw leaves. *)
Variable random_index : nat → rng → nat * rng.

(** [random.choices(population, k=k)]: [k] draws with replacement,
    [population[floor(random() * n)]] each. *)
Fixpoint choices (population : list Ascii.ascii) (k : nat) (g : rng)
    : result (list Ascii.ascii * rng) :=
  match k with
  | O => Return ([], g)
  | S k' =>
      let '(i, g1) := random_index (List.length population) g in
      match population !! i with
      | None => Raise IndexError
      | Some c =>
          '(cs, g2) ← choices population k' g1;
          Return (c :: cs, g2)
      end
  end.

(** The [k] indices [choices] draws from a population of [n] items,
    starting in state [g]. *)
Fixpoint index_draws (n k : nat) (g : rng) : list nat :=
  match k with
  | O => []
  | S k' =>
      let '(i, g1) := random_index n g in
      i :: index_draws n k' g1
  end.

Definition _generate_password (g : rng) : result (string * rng) :=
  '(cs, g') ← choices (chars password_chars) 16 g;
  Return (String.string_of_list_ascii cs, g').

(** A password is freshly generated when a call of [_generate_password]
    returned it. *)
Definition generated (password : string) : Prop :=
  ∃ g g', _generate_password g = Return (password, g').

(** The state of the loop of [init]: [self.passwords], the messages handed
    to [_print_output] so far and the generator. *)
Definition init_state : Type := gmap string string * list string * rng.

(** One turn of [for user in users]. *)
Definition init_user (st : init_state) (user : user_dict)
    : result init_state :=
  let '(passwords, output, g) := st in
  '(passwords, g) ←
    (if bool_decide (dict_username user ∉ dom passwords)
     then '(password, g') ← _generate_password g;
          Return (<[dict_username user := password]> passwords, g')
     else Return (passwords, g));
  password ← dict_getitem passwords (dict_username user);
  Return (passwords,
          output ++ [password_message (dict_username user) password], g).

Fixpoint init_loop (users : list user_dict) (st : init_state)
    : result init_state :=
  match users with
  | [] => Return st
  | user :: users' => st' ← init_user st user; init_loop users' st'
  end.

(** [init]: [user_passwords_from_file] is the dictionary read from the
    password file (empty when there is no file), [users] the result of
    [get_users()].  The returned dictionary is [self.passwords], which
    [init] then writes back to the file. *)
Definition init (user_passwords_from_file : gmap string string)
    (users : list user_dict) (g : rng) : result init_state :=
  let usernames : gset string := list_to_set (dict_username <$> users) in
  let passwords : gmap string string :=
    filter (λ item, item.1 ∈ usernames) user_passwords_from_file in
  init_loop users (passwords, [], g).

End Bootstrap.

(** A scripted generator for running the model: the state lists the draws
    to come, and a draw is reduced into the population. *)
Definition scripted_index (n : nat) (g : list nat) : nat * list nat :=
  match g with
  | [] => (0, [])
  | i :: g' => (i mod n, g')
  end.

(** The sequences of [k] draws from a population of [n] items.  Without
    weights [random.choices] draws every index with the same probability,
    each draw apart from the others, so these sequences are its equally
    likely outcomes. *)
Fixpoint draw_sequences (n k : nat) : list (list nat) :=
  match k with
  | O => [[]]
  | S k' => i ← seq 0 n; (i ::.) <$> draw_sequences n k'
  end.

(** The character at position [j] of the password [_generate_password]
    makes of a sequence of draws. *)
Definition password_char (draws : list nat) (j : nat)
    : option Ascii.ascii :=
  match _generate_password (list nat) scripted_index draws with
  | Return (password, _) => chars password !! j
  | Raise _ => None
  end.

(** The minimum role the specification compares a caller against: the
    read-only minimum when the method is ["GET"] and the policy defines one,
    the general minimum otherwise. *)
Definition effective_minimum (method : string)
    (allow_role : SimpleAuthManagerRole)
    (allow_get_role : option SimpleAuthManagerRole) : SimpleAuthManagerRole :=
  match allow_get_role with
  | Some read_minimum =>
      if bool_decide (method = "GET") then read_minimum else allow_role
  | None => allow_role
  end.

(** The alphabet of secrets as the specification words it: the lowercase
    and uppercase letters minus [i], [l], [o], [I], [L], [O], plus the
    digits [2] to [9]. *)
Definition alphabet_of_spec : list Ascii.ascii :=
  filter (λ c, c ∉ chars "iloILO")
    (chars "abcdefghijklmnopqrstuvwxyzABCDEFGHIJKLMNOPQRSTUVWXYZ")
  ++ chars "23456789".

(** Concrete inputs for running the decision: an environment with nobody
    in the session and the all-admins flag off, and a caller with a given
    role name. *)
Definition nobody_logged_in : environment :=
  {| session_user := None; simple_auth_manager_all_admins := false |}.

Definition caller_named (username role : string) : SimpleAuthManagerUser :=
  {| username := username; role := Some role |}.

(** ** Configured users *)

(** [s.split(sep)] for a separator of one character: the pieces between
    the separators, at least one piece. *)
Fixpoint str_split (sep : Ascii.ascii) (s : string) : list string :=
  match s with
  | EmptyString => [EmptyString]
  | String c s' =>
      if Ascii.eqb c sep then EmptyString :: str_split sep s'
      else
        match str_split sep s' with
        | part :: parts => String c part :: parts
        | [] => [String c EmptyString]
        end
  end.

(** What the unpacking [username, role = parts] raises when [parts] has
    not two items. *)
Inductive ValueError : Type :=
| not_enough_values (got : nat)
| too_many_values.

Inductive unpacked (A : Type) : Type :=
| Unpacked (a : A)
| Failed (e : ValueError).

Arguments Unpacked {A} a.
Arguments Failed {A} e.

(** [{"username": username, "role": role}] for [username, role = parts]. *)
Definition unpack_user (parts : list string) : unpacked user_dict :=
  match parts with
  | [] => Failed (not_enough_values 0)
  | [_] => Failed (not_enough_values 1)
  | [username; role] =>
      Unpacked {| dict_username := username; dict_role := role |}
  | _ => Failed too_many_values
  end.

(** [[{...} for username, role in users]]: the first list that does not
    unpack ends the comprehension. *)
Fixpoint unpack_users (users : list (list string))
    : unpacked (list user_dict) :=
  match users with
  | [] => Unpacked []
  | parts :: users' =>
      match unpack_user parts with
      | Failed e => Failed e
      | Unpacked user =>
          match unpack_users users' with
          | Failed e => Failed e
          | Unpacked rest => Unpacked (user :: rest)
          end
      end
  end.

(** [get_users]: [simple_auth_manager_users] is the list
    [conf.getlist("core", "simple_auth_manager_users")]. *)
Definition get_users (simple_auth_manager_users : list string)
    : unpacked (list user_dict) :=
  let users := str_split ":" <$> simple_auth_manager_users in
  unpack_users users.

(** The entry [username:role] of a configured user, the text [get_users]
    reads the user from. *)
Definition user_entry (user : user_dict) : string :=
  dict_username user +:+ ":" +:+ dict_role user.

(** The messages for [users] when their passwords are those of
    [passwords], one per user and in order. *)
Definition printed_for (passwords : gmap string string)
    (users : list user_dict) : list string :=
  (λ user,
     password_message (dict_username user)
       (passwords !!! dict_username user)) <$> users.

(** ** The password file *)

(** [path.endswith(sep)] for a separator of one character. *)
Fixpoint endswith (path : string) (sep : Ascii.ascii) : bool :=
  match path with
  | EmptyString => false
  | String c EmptyString => Ascii.eqb c sep
  | String _ path' => endswith path' sep
  end.

(** [os.path.join(a, b)] of [posixpath]. *)
Definition os_path_join (a b : string) : string :=
  if String.prefix "/" b then b
  else if negb (str_truthy a) || endswith a "/" then a +:+ b
  else a +:+ "/" +:+ b.

(** [os.getenv(key, default)] on the environment of the process. *)
Definition os_getenv (environ : gmap string string) (key default : string)
    : string :=
  match environ !! key with
  | Some v => v
  | None => default
  end.

(** [get_generated_password_file]: [AIRFLOW_HOME] is the constant of
    [airflow.configuration]. *)
Definition get_generated_password_file (environ : gmap string string)
    (AIRFLOW_HOME : string) : string :=
  os_path_join
    (os_getenv environ "AIRFLOW_AUTH_MANAGER_CREDENTIAL_DIRECTORY"
       AIRFLOW_HOME)
    "simple_auth_manager_passwords.json.generated".

(** ** Tokens *)

Section Serialization.

(** The values a token holds and a user carries.  [serialize_user] and
    [deserialize_user] copy them without looking at them, so they can be
    of any type. *)
Variable value : Type.

(** The two attributes of a user, as the constructor stores them. *)
Record user_attributes : Type := {
  attribute_username : value;
  attribute_role : value
}.

(** [token[key]]. *)
Definition token_getitem (token : gmap string value) (key : string)
    : result value :=
  match token !! key with
  | Some v => Return v
  | None => Raise (KeyError key)
  end.

Definition deserialize_user (token : gmap string value)
    : result user_attributes :=
  username ← token_getitem token "username";
  role ← token_getitem token "role";
  Return {| attribute_username := username; attribute_role := role |}.

Definition serialize_user (user : user_attributes) : gmap string value :=
  <["role" := attribute_role user]>
    (<["username" := attribute_username user]> ∅).

End Serialization.

Arguments attribute_username {value} _.
Arguments attribute_role {value} _.
Arguments deserialize_user {value} token.
Arguments serialize_user {value} user.

(** * Properties *)

Example upper_ascii_admin : upper_ascii "Admin" = "ADMIN".
Proof. reflexivity. Qed.

Example is_authorized_op_post :
  _is_authorized upper_ascii
    {| session_user := None; simple_auth_manager_all_admins := false |}
    "POST" OP (Some VIEWER) (Some {| username := "u"; role := Some "op" |})
  = Return true.
Proof. reflexivity. Qed.

Lemma bind_Return {A B : Type} (a : A) (k : A → result B) :
  Return a ≫= k = k a.
Proof. done. Qed.

(** ** The role hierarchy *)

Lemma getitem_name (r : SimpleAuthManagerRole) : getitem (name r) = Return r.
Proof. by destruct r. Qed.

Lemma getitem_Return (key : string) (r : SimpleAuthManagerRole) :
  getitem key = Return r ↔ name r = key.
Proof.
  split; [| intros <-; apply getitem_name].
  unfold getitem.
  destruct (List.find _ members) as [r'|] eqn:Hfind; [| done].
  intros [= ->]. apply find_some in Hfind as [_ Heq].
  by apply String.eqb_eq.
Qed.

Lemma getitem_Raise (key : string) :
  (∀ r, name r ≠ key) → getitem key = Raise (KeyError key).
Proof.
  intros Hnone. unfold getitem.
  destruct (List.find _ members) as [r|] eqn:Hfind; [| done].
  apply find_some in Hfind as [_ Heq].
  apply String.eqb_eq in Heq. by destruct (Hnone r).
Qed.

Lemma role_eqb_eq (r1 r2 : SimpleAuthManagerRole) :
  role_eqb r1 r2 = true ↔ r1 = r2.
Proof. destruct r1, r2; by cbv. Qed.

Lemma role_eqb_ADMIN (r : SimpleAuthManagerRole) :
  r ≠ ADMIN → role_eqb r ADMIN = false.
Proof. by destruct r. Qed.

Lemma role_truthy_true (r : SimpleAuthManagerRole) : role_truthy r = true.
Proof. done. Qed.

Lemma str_truthy_ne (s : string) : s ≠ "" → str_truthy s = true.
Proof. by destruct s. Qed.

(** C8: the hierarchy has exactly the four members VIEWER, USER, OP and
    ADMIN, of ranks 0, 1, 2 and 3 in this order; distinct members have
    distinct names and distinct ranks; and the comparison of ranks
    [order r1 >= order r2] is total and transitive. *)
Theorem role_hierarchy :
  (∀ r : SimpleAuthManagerRole, r ∈ members) ∧
  NoDup members ∧
  List.length members = 4 ∧
  order <$> members = [0; 1; 2; 3]%Z ∧
  name <$> members = ["VIEWER"; "USER"; "OP"; "ADMIN"] ∧
  (order VIEWER < order USER < order OP ∧ order OP < order ADMIN)%Z ∧
  (∀ r1 r2, order r1 = order r2 → r1 = r2) ∧
  (∀ r1 r2, name r1 = name r2 → r1 = r2) ∧
  (∀ r1 r2, (order r1 >= order r2)%Z ∨ (order r2 >= order r1)%Z) ∧
  (∀ r1 r2 r3,
     (order r1 >= order r2)%Z → (order r2 >= order r3)%Z →
     (order r1 >= order r3)%Z).
Proof.
  split_and!; try done.
  - intros r. unfold members. destruct r; set_solver.
  - compute_done.
  - intros r1 r2. by destruct r1, r2.
  - intros r1 r2. by destruct r1, r2.
  - intros r1 r2. lia.
  - intros r1 r2 r3. lia.
Qed.

(** ** The authorization decision *)

Section AuthorizationProperties.

Context (upper : string → string).

Implicit Types (env : environment) (method : string).
Implicit Types (allow_role r : SimpleAuthManagerRole).
Implicit Types (allow_get_role : option SimpleAuthManagerRole).
Implicit Types (user : option SimpleAuthManagerUser).
Implicit Types (u : SimpleAuthManagerUser) (s : string).

(** The decision once the role of the caller is resolved. *)
Lemma _is_authorized_resolved env method allow_role allow_get_role user u s r :
  user_or_current env user = Some u →
  get_role u = Some s →
  s ≠ "" →
  getitem (upper s) = Return r →
  _is_authorized upper env method allow_role allow_get_role user =
    if role_eqb r ADMIN then Return true
    else Return
           (order r >=?
              order (effective_minimum method allow_role allow_get_role))%Z.
Proof.
  intros Hu Hs Hne Hr. unfold _is_authorized.
  rewrite Hu, Hs, (str_truthy_ne s Hne), Hr. simpl.
  destruct (role_eqb r ADMIN); [done |].
  unfold effective_minimum.
  destruct allow_get_role as [g|]; simpl.
  - case_bool_decide as Hm.
    + subst method. done.
    + apply String.eqb_neq in Hm. by rewrite Hm.
  - by destruct (String.eqb method "GET").
Qed.

(** The decision for a caller whose role name is not that of a member. *)
Lemma _is_authorized_unresolved env method allow_role allow_get_role user u s :
  user_or_current env user = Some u →
  get_role u = Some s →
  s ≠ "" →
  (∀ r, name r ≠ upper s) →
  _is_authorized upper env method allow_role allow_get_role user =
    Raise (KeyError (upper s)).
Proof.
  intros Hu Hs Hne Hr. unfold _is_authorized.
  by rewrite Hu, Hs, (str_truthy_ne s Hne), (getitem_Raise _ Hr).
Qed.

(** Every member covers the minimum when it is ADMIN, so one comparison
    of ranks describes the decision for every resolved role. *)
Lemma _is_authorized_by_rank env method allow_role allow_get_role user u s r :
  user_or_current env user = Some u →
  get_role u = Some s →
  s ≠ "" →
  getitem (upper s) = Return r →
  _is_authorized upper env method allow_role allow_get_role user =
    Return
      (order r >=?
         order (effective_minimum method allow_role allow_get_role))%Z.
Proof.
  intros Hu Hs Hne Hr.
  rewrite (_is_authorized_resolved _ _ _ _ _ u s r) by done.
  destruct (role_eqb r ADMIN) eqn:Hadmin; [| done].
  apply role_eqb_eq in Hadmin as ->.
  by destruct (effective_minimum method allow_role allow_get_role).
Qed.

(** A view is decided as a ["GET"] whatever method is asked for. *)
Lemma _is_authorized_view_policy env method user :
  _is_authorized upper env "GET" VIEWER None user =
  _is_authorized upper env method VIEWER (Some VIEWER) user.
Proof.
  unfold _is_authorized.
  destruct (user_or_current env user) as [u|]; [| done].
  destruct (get_role u) as [s|]; [| done].
  destruct (negb (str_truthy s)); [done |].
  destruct (getitem (upper s)) as [r|e]; [| done]. simpl.
  destruct (role_eqb r ADMIN); [done |].
  by destruct (String.eqb method "GET").
Qed.

(** C1 (as the code has it): a caller whose role name is not empty and,
    once upper-cased, is the name of no member makes [_is_authorized]
    raise [KeyError] with the upper-cased name, for every method and every
    policy; the exception reaches the invoker. *)
Theorem unknown_role_raises_KeyError
    env method allow_role allow_get_role user u s :
  user_or_current env user = Some u →
  get_role u = Some s →
  s ≠ "" →
  (∀ r, name r ≠ upper s) →
  _is_authorized upper env method allow_role allow_get_role user =
    Raise (KeyError (upper s)) ∧
  _is_authorized upper env method allow_role allow_get_role user ≠
    Return false.
Proof.
  intros Hu Hs Hne Hr.
  by rewrite (_is_authorized_unresolved _ _ _ _ _ u s).
Qed.

(** C2: when the role of the caller resolves to ADMIN, [_is_authorized]
    returns true for every method and every policy, also a policy whose
    minimum is ADMIN itself. *)
Theorem admin_always_authorized
    env method allow_role allow_get_role user u s :
  user_or_current env user = Some u →
  get_role u = Some s →
  s ≠ "" →
  getitem (upper s) = Return ADMIN →
  _is_authorized upper env method allow_role allow_get_role user =
    Return true.
Proof.
  intros Hu Hs Hne Hr.
  by rewrite (_is_authorized_resolved _ _ _ _ _ u s ADMIN).
Qed.

(** C3: for a caller whose role resolves to a member [r] other than ADMIN,
    [_is_authorized] returns, and allows exactly when the rank of [r] is at
    least the rank of the effective minimum: the read-only minimum on
    ["GET"] when the policy defines one, the general minimum otherwise.
    With general minimum OP and read-only minimum VIEWER, a USER and a
    VIEWER are allowed on ["GET"] and denied on any other method, and an
    OP is allowed on both. *)
Theorem non_admin_decided_by_rank
    env method allow_role allow_get_role user u s r :
  user_or_current env user = Some u →
  get_role u = Some s →
  s ≠ "" →
  getitem (upper s) = Return r →
  r ≠ ADMIN →
  (∃ allowed : bool,
     _is_authorized upper env method allow_role allow_get_role user =
       Return allowed ∧
     (allowed = true ↔
      (order r >=
         order (effective_minimum method allow_role allow_get_role))%Z)) ∧
  (r = USER ∨ r = VIEWER →
     _is_authorized upper env "GET" OP (Some VIEWER) user = Return true ∧
     (method ≠ "GET" →
      _is_authorized upper env method OP (Some VIEWER) user =
        Return false)) ∧
  (r = OP →
     _is_authorized upper env "GET" OP (Some VIEWER) user = Return true ∧
     (method ≠ "GET" →
      _is_authorized upper env method OP (Some VIEWER) user =
        Return true)).
Proof.
  intros Hu Hs Hne Hr Hadmin.
  assert (Hdec : ∀ m ar agr,
    _is_authorized upper env m ar agr user =
      Return (order r >=? order (effective_minimum m ar agr))%Z).
  { intros m ar agr.
    rewrite (_is_authorized_resolved _ _ _ _ _ u s r) by done.
    by rewrite role_eqb_ADMIN. }
  split_and!.
  - eexists. split; [apply Hdec |].
    rewrite Z.geb_leb, Z.leb_le. lia.
  - intros Hrole. rewrite !Hdec. unfold effective_minimum.
    split; [by destruct Hrole as [-> | ->] |].
    intros Hm. rewrite bool_decide_eq_false_2 by done.
    by destruct Hrole as [-> | ->].
  - intros ->. rewrite !Hdec. unfold effective_minimum.
    split; [done |].
    intros Hm. by rewrite bool_decide_eq_false_2.
Qed.

(** C4: when the caller is absent, that is no [user] argument is given and
    nobody is authenticated ([get_user()] is [None], as it is when nobody is
    in the session and the all-admins flag is off), [_is_authorized] returns
    false for every method and every policy; it raises nothing. *)
Theorem absent_caller_denied env method allow_role allow_get_role :
  is_logged_in env = false ∨ get_user env = None →
  _is_authorized upper env method allow_role allow_get_role None =
    Return false.
Proof.
  intros Habsent.
  assert (Hnone : get_user env = None).
  { destruct Habsent as [Hout | Hnone]; [| done].
    unfold get_user. by rewrite Hout. }
  unfold _is_authorized, user_or_current. by rewrite Hnone.
Qed.

(** With no [user] argument and a current user, the decision is the one
    for the current user. *)
Lemma _is_authorized_current env method allow_role allow_get_role u :
  get_user env = Some u →
  _is_authorized upper env method allow_role allow_get_role None =
  _is_authorized upper env method allow_role allow_get_role (Some u).
Proof. unfold _is_authorized, user_or_current. by intros ->. Qed.

(** C9: a caller whose role name is [None] or the empty string is denied
    for every method and every policy: [_is_authorized] returns false, and
    no exception is raised whatever [upper] and the lookup would do. *)
Theorem falsy_role_denied env method allow_role allow_get_role user u :
  user_or_current env user = Some u →
  get_role u = None ∨ get_role u = Some "" →
  _is_authorized upper env method allow_role allow_get_role user =
    Return false.
Proof.
  intros Hu Hrole. unfold _is_authorized. rewrite Hu.
  by destruct Hrole as [-> | ->].
Qed.

(** C7: the policy each resource kind is decided with.  Configuration,
    connection and variable: general minimum OP, no read-only minimum.
    Pool and asset: general minimum OP, read-only minimum VIEWER.  Dag:
    general minimum USER, read-only minimum VIEWER.  View and custom view:
    VIEWER for every method.  For a caller whose role resolves to [r] the
    decision is the comparison of the rank of [r] with the rank the table
    gives. *)
Theorem default_policy_table env method access_view resource_name user :
  (is_authorized_configuration upper env method user =
     _is_authorized upper env method OP None user ∧
   is_authorized_connection upper env method user =
     _is_authorized upper env method OP None user ∧
   is_authorized_variable upper env method user =
     _is_authorized upper env method OP None user ∧
   is_authorized_pool upper env method user =
     _is_authorized upper env method OP (Some VIEWER) user ∧
   is_authorized_asset upper env method user =
     _is_authorized upper env method OP (Some VIEWER) user ∧
   is_authorized_dag upper env method user =
     _is_authorized upper env method USER (Some VIEWER) user ∧
   is_authorized_view upper env access_view user =
     _is_authorized upper env method VIEWER (Some VIEWER) user ∧
   is_authorized_custom_view upper env method resource_name user =
     _is_authorized upper env method VIEWER (Some VIEWER) user) ∧
  (∀ u s r,
     user_or_current env user = Some u →
     get_role u = Some s →
     s ≠ "" →
     getitem (upper s) = Return r →
     let read_or (read_minimum general_minimum : SimpleAuthManagerRole) :=
       if bool_decide (method = "GET") then read_minimum
       else general_minimum in
     is_authorized_configuration upper env method user =
       Return (order r >=? order OP)%Z ∧
     is_authorized_connection upper env method user =
       Return (order r >=? order OP)%Z ∧
     is_authorized_variable upper env method user =
       Return (order r >=? order OP)%Z ∧
     is_authorized_pool upper env method user =
       Return (order r >=? order (read_or VIEWER OP))%Z ∧
     is_authorized_asset upper env method user =
       Return (order r >=? order (read_or VIEWER OP))%Z ∧
     is_authorized_dag upper env method user =
       Return (order r >=? order (read_or VIEWER USER))%Z ∧
     is_authorized_view upper env access_view user =
       Return (order r >=? order VIEWER)%Z ∧
     is_authorized_custom_view upper env method resource_name user =
       Return (order r >=? order VIEWER)%Z).
Proof.
  split.
  - split_and!; try done; apply _is_authorized_view_policy.
  - intros u s r Hu Hs Hne Hr read_or.
    unfold is_authorized_configuration, is_authorized_connection,
      is_authorized_variable, is_authorized_pool, is_authorized_asset,
      is_authorized_dag, is_authorized_view, is_authorized_custom_view.
    rewrite !(_is_authorized_by_rank _ _ _ _ _ u s r) by done.
    done.
Qed.

(** C10: [is_authorized_custom_view] returns the same for any two methods,
    and like [is_authorized_view] it is the decision for ["GET"] with
    minimum VIEWER; so a caller whose role resolves to a member is allowed
    on a view whatever the method. *)
Theorem view_ignores_method
    env m1 m2 resource_name access_view user :
  is_authorized_custom_view upper env m1 resource_name user =
    is_authorized_custom_view upper env m2 resource_name user ∧
  is_authorized_custom_view upper env m1 resource_name user =
    _is_authorized upper env "GET" VIEWER None user ∧
  is_authorized_view upper env access_view user =
    _is_authorized upper env "GET" VIEWER None user ∧
  (∀ u s r,
     user_or_current env user = Some u →
     get_role u = Some s →
     s ≠ "" →
     getitem (upper s) = Return r →
     is_authorized_custom_view upper env m1 resource_name user =
       Return true).
Proof.
  split_and!; try done.
  intros u s r Hu Hs Hne Hr. unfold is_authorized_custom_view.
  rewrite (_is_authorized_by_rank _ _ _ _ _ u s r) by done.
  by destruct r.
Qed.

End AuthorizationProperties.

(** ** The decision on concrete callers *)

(** A caller with the role name ["guest"] is not denied: the lookup of
    ["GUEST"] raises [KeyError], and the exception is the outcome. *)
Lemma unknown_role_not_denied :
  (∀ r, name r ≠ upper_ascii "guest") ∧
  _is_authorized upper_ascii nobody_logged_in "GET" VIEWER None
    (Some (caller_named "bob" "guest")) = Raise (KeyError "GUEST") ∧
  _is_authorized upper_ascii nobody_logged_in "GET" VIEWER None
    (Some (caller_named "bob" "guest")) ≠ Return false.
Proof. split_and!; [by intros [] | done | done]. Qed.

Lemma unknown_role_raises_KeyError_witness :
  _is_authorized upper_ascii nobody_logged_in "GET" VIEWER None
    (Some (caller_named "bob" "guest")) = Raise (KeyError "GUEST") ∧
  _is_authorized upper_ascii nobody_logged_in "GET" VIEWER None
    (Some (caller_named "bob" "guest")) ≠ Return false.
Proof.
  apply (unknown_role_raises_KeyError upper_ascii nobody_logged_in "GET"
           VIEWER None _ (caller_named "bob" "guest") "guest").
  - reflexivity.
  - reflexivity.
  - discriminate.
  - intros r; destruct r; discriminate.
Defined.

Lemma admin_always_authorized_witness :
  getitem (upper_ascii "Admin") = Return ADMIN ∧
  _is_authorized upper_ascii nobody_logged_in "DELETE" ADMIN (Some ADMIN)
    (Some (caller_named "root" "Admin")) = Return true.
Proof.
  split; [reflexivity |].
  apply (admin_always_authorized upper_ascii nobody_logged_in "DELETE"
           ADMIN (Some ADMIN) _ (caller_named "root" "Admin") "Admin").
  - reflexivity.
  - reflexivity.
  - discriminate.
  - reflexivity.
Defined.

Lemma non_admin_decided_by_rank_witness :
  _is_authorized upper_ascii nobody_logged_in "GET" OP (Some VIEWER)
    (Some (caller_named "ann" "user")) = Return true ∧
  ("POST" ≠ "GET" →
   _is_authorized upper_ascii nobody_logged_in "POST" OP (Some VIEWER)
     (Some (caller_named "ann" "user")) = Return false).
Proof.
  apply (non_admin_decided_by_rank upper_ascii nobody_logged_in "POST"
           OP (Some VIEWER) (Some (caller_named "ann" "user"))
           (caller_named "ann" "user") "user" USER).
  - reflexivity.
  - reflexivity.
  - discriminate.
  - reflexivity.
  - discriminate.
  - left. reflexivity.
Defined.

Lemma absent_caller_denied_witness :
  is_logged_in nobody_logged_in = false ∧
  _is_authorized upper_ascii nobody_logged_in "DELETE" VIEWER None None =
    Return false.
Proof.
  split; [reflexivity |].
  apply (absent_caller_denied upper_ascii nobody_logged_in "DELETE"
           VIEWER None).
  left. reflexivity.
Defined.

Lemma falsy_role_denied_witness :
  _is_authorized upper_ascii nobody_logged_in "GET" VIEWER None
    (Some (caller_named "eve" "")) = Return false.
Proof.
  apply (falsy_role_denied upper_ascii nobody_logged_in "GET" VIEWER None _
           (caller_named "eve" "")).
  - reflexivity.
  - right. reflexivity.
Defined.

Lemma default_policy_table_witness :
  is_authorized_dag upper_ascii nobody_logged_in "POST"
    (Some (caller_named "vic" "viewer")) = Return false ∧
  is_authorized_pool upper_ascii nobody_logged_in "GET"
    (Some (caller_named "vic" "viewer")) = Return true.
Proof.
  destruct (default_policy_table upper_ascii nobody_logged_in "POST" "WEBSITE"
              "menu" (Some (caller_named "vic" "viewer"))) as [_ Hpost].
  destruct (default_policy_table upper_ascii nobody_logged_in "GET" "WEBSITE"
              "menu" (Some (caller_named "vic" "viewer"))) as [_ Hget].
  specialize (Hpost (caller_named "vic" "viewer") "viewer" VIEWER
                eq_refl eq_refl ltac:(discriminate) eq_refl).
  specialize (Hget (caller_named "vic" "viewer") "viewer" VIEWER
                eq_refl eq_refl ltac:(discriminate) eq_refl).
  simpl in Hpost, Hget.
  split; [apply Hpost | apply Hget].
Defined.

Lemma view_ignores_method_witness :
  is_authorized_custom_view upper_ascii nobody_logged_in "DELETE" "plugin"
    (Some (caller_named "vic" "viewer")) = Return true.
Proof.
  destruct (view_ignores_method upper_ascii nobody_logged_in "DELETE" "GET"
              "plugin" "WEBSITE" (Some (caller_named "vic" "viewer")))
    as (_ & _ & _ & Hallowed).
  apply (Hallowed (caller_named "vic" "viewer") "viewer" VIEWER).
  - reflexivity.
  - reflexivity.
  - discriminate.
  - reflexivity.
Defined.

(** ** Password generation *)

Lemma length_string_of_list_ascii (cs : list Ascii.ascii) :
  String.length (String.string_of_list_ascii cs) = List.length cs.
Proof. induction cs as [|c cs IH]; simpl; congruence. Qed.

Lemma password_chars_length : List.length (chars password_chars) = 52.
Proof. reflexivity. Qed.

Lemma password_chars_NoDup : NoDup (chars password_chars).
Proof. compute_done. Qed.

(** The alphabet of the code leaves out [j] and [J] besides the six
    characters the specification names. *)
Lemma password_chars_letters :
  chars password_chars =
    filter (λ c, c ∉ chars "ijloIJLO")
      (chars "abcdefghijklmnopqrstuvwxyzABCDEFGHIJKLMNOPQRSTUVWXYZ")
    ++ chars "23456789".
Proof. compute_done. Qed.

Lemma password_chars_unambiguous (c : Ascii.ascii) :
  c ∈ chars password_chars → c ∉ chars "ijloIJLO".
Proof.
  rewrite password_chars_letters, elem_of_app, list_elem_of_filter.
  intros [[Hc _] | Hdigit]; [done |].
  intros Hletter. revert Hdigit.
  repeat (apply elem_of_cons in Hletter as [-> | Hletter];
          [compute_done |]).
  by apply elem_of_nil in Hletter.
Qed.

Section BootstrapProperties.

Context (rng : Type) (random_index : nat → rng → nat * rng).

(** A draw from a population that is not empty is an index into it. *)
Hypothesis random_index_lt :
  ∀ n g, 0 < n → (random_index n g).1 < n.

Lemma choices_Return (population : list Ascii.ascii) (k : nat) (g : rng) :
  0 < List.length population →
  ∃ cs g',
    choices rng random_index population k g = Return (cs, g') ∧
    List.length cs = k ∧
    Forall2 (λ c i, population !! i = Some c) cs
      (index_draws rng random_index (List.length population) k g).
Proof.
  intros Hpop. revert g.
  induction k as [|k IH]; intros g; simpl.
  - exists [], g. by split_and!.
  - pose proof (random_index_lt _ g Hpop) as Hlt.
    destruct (random_index (List.length population) g) as [i g1].
    simpl in Hlt.
    destruct (lookup_lt_is_Some_2 population i Hlt) as [c Hc].
    rewrite Hc.
    destruct (IH g1) as (cs & g2 & -> & Hlen & Hall).
    exists (c :: cs), g2. simpl.
    split_and!; [done | by rewrite Hlen | by constructor].
Qed.

Lemma _generate_password_Return (g : rng) :
  ∃ password g',
    _generate_password rng random_index g = Return (password, g') ∧
    String.length password = 16 ∧
    Forall2 (λ c i, chars password_chars !! i = Some c) (chars password)
      (index_draws rng random_index 52 16 g).
Proof.
  destruct (choices_Return (chars password_chars) 16 g) as
    (cs & g' & Hcs & Hlen & Hall); [rewrite password_chars_length; lia |].
  exists (String.string_of_list_ascii cs), g'.
  unfold _generate_password. rewrite Hcs.
  split_and!.
  - done.
  - by rewrite length_string_of_list_ascii.
  - by rewrite String.list_ascii_of_string_of_list_ascii.
Qed.

(** ** Reconciliation of the password store *)

Implicit Types (passwords : gmap string string) (output : list string).
Implicit Types (user : user_dict) (users : list user_dict).

Lemma init_user_present passwords output g user password :
  passwords !! dict_username user = Some password →
  init_user rng random_index (passwords, output, g) user =
    Return (passwords,
            output ++ [password_message (dict_username user) password], g).
Proof.
  intros Hin. unfold init_user.
  rewrite bool_decide_eq_false_2
    by (rewrite not_elem_of_dom; congruence).
  simpl. unfold dict_getitem. by rewrite Hin.
Qed.

Lemma init_user_absent passwords output g user password g' :
  passwords !! dict_username user = None →
  _generate_password rng random_index g = Return (password, g') →
  init_user rng random_index (passwords, output, g) user =
    Return (<[dict_username user := password]> passwords,
            output ++ [password_message (dict_username user) password], g').
Proof.
  intros Hout Hgen. unfold init_user.
  rewrite bool_decide_eq_true_2 by (by rewrite not_elem_of_dom).
  rewrite Hgen. simpl. unfold dict_getitem.
  by rewrite lookup_insert_eq.
Qed.

Lemma init_loop_cons user users (st : init_state rng) :
  init_loop rng random_index (user :: users) st =
    st' ← init_user rng random_index st user;
    init_loop rng random_index users st'.
Proof. done. Qed.

(** The loop returns; it keeps every entry it starts with, adds an entry
    for every user of the list that had none, and every entry it adds is
    freshly generated. *)
Lemma init_loop_Return users passwords output g :
  ∃ passwords' output' g',
    init_loop rng random_index users (passwords, output, g) =
      Return (passwords', output', g') ∧
    dom passwords' =
      dom passwords ∪ list_to_set (dict_username <$> users) ∧
    (∀ u pw, passwords !! u = Some pw → passwords' !! u = Some pw) ∧
    (∀ u pw, passwords !! u = None → passwords' !! u = Some pw →
             generated rng random_index pw).
Proof.
  revert passwords output g.
  induction users as [|user users IH]; intros passwords output g.
  - exists passwords, output, g. simpl.
    split_and!; [done | by rewrite (right_id_L ∅ (∪)) | done | congruence].
  - rewrite init_loop_cons.
    destruct (passwords !! dict_username user) as [password|] eqn:Hlook.
    + rewrite (init_user_present _ _ _ _ password Hlook). simpl.
      destruct (IH passwords
                  (output ++
                     [password_message (dict_username user) password]) g)
        as (passwords' & output' & g' & -> & Hdom & Hkeep & Hfresh).
      exists passwords', output', g'.
      split_and!; [done | | done | done].
      rewrite Hdom. apply (elem_of_dom_2 passwords) in Hlook. set_solver.
    + destruct (_generate_password_Return g)
        as (password & g1 & Hgen & _ & _).
      rewrite (init_user_absent _ _ _ _ password g1 Hlook Hgen). simpl.
      destruct (IH (<[dict_username user := password]> passwords)
                  (output ++
                     [password_message (dict_username user) password]) g1)
        as (passwords' & output' & g' & -> & Hdom & Hkeep & Hfresh).
      exists passwords', output', g'.
      split_and!; [done | | |].
      * rewrite Hdom, dom_insert_L. set_solver.
      * intros u pw Hu. apply Hkeep.
        rewrite lookup_insert_ne; [done | congruence].
      * intros u pw Hnone Hsome.
        destruct (decide (u = dict_username user)) as [-> | Hne].
        -- rewrite (Hkeep (dict_username user) password) in Hsome
             by apply lookup_insert_eq.
           injection Hsome as <-. by exists g, g1.
        -- apply (Hfresh u); [| done].
           by rewrite lookup_insert_ne.
Qed.

(** C5: [init] returns the reconciled store.  Its entries are exactly the
    configured usernames; an entry of the persisted store whose user is
    still configured is carried over unchanged; a configured user with no
    persisted entry gets a freshly generated password; nothing else is in
    the store.  With the persisted store [{alice: "X", bob: "Y"}] and the
    configured users [alice] and [carol], the store maps [alice] to ["X"]
    and [carol] to the password generated first, and has no entry for
    [bob]. *)
Theorem init_reconciles :
  (∀ (user_passwords_from_file : gmap string string) users g,
     let usernames : gset string :=
       list_to_set (dict_username <$> users) in
     ∃ passwords output g',
       init rng random_index user_passwords_from_file users g =
         Return (passwords, output, g') ∧
       dom passwords = usernames ∧
       (∀ u, u ∉ usernames → passwords !! u = None) ∧
       (∀ u pw, u ∈ usernames →
                user_passwords_from_file !! u = Some pw →
                passwords !! u = Some pw) ∧
       (∀ u, u ∈ usernames →
             user_passwords_from_file !! u = None →
             ∃ pw, passwords !! u = Some pw ∧
                   generated rng random_index pw) ∧
       filter (λ item, item.1 ∈ dom user_passwords_from_file) passwords =
         filter (λ item, item.1 ∈ usernames) user_passwords_from_file) ∧
  (∀ role_alice role_carol g,
     ∃ secret g',
       _generate_password rng random_index g = Return (secret, g') ∧
       init rng random_index (<["alice" := "X"]> {["bob" := "Y"]})
         [ {| dict_username := "alice"; dict_role := role_alice |};
           {| dict_username := "carol"; dict_role := role_carol |} ] g =
       Return (<["carol" := secret]> {["alice" := "X"]},
               [ password_message "alice" "X";
                 password_message "carol" secret ], g') ∧
       (<["carol" := secret]> {["alice" := "X"]} : gmap string string)
         !! "bob" = None).
Proof.
  split.
  - intros persisted users g usernames. unfold init. fold usernames.
    set (filtered := filter (λ item, item.1 ∈ usernames) persisted).
    assert (Hfiltered : dom filtered ⊆ usernames).
    { intros u [pw Hu]%elem_of_dom.
      by apply map_lookup_filter_Some in Hu as [_ Hu]. }
    destruct (init_loop_Return users filtered [] g)
      as (passwords & output & g' & Hrun & Hdom & Hkeep & Hfresh).
    fold usernames in Hdom.
    assert (Hdom' : dom passwords = usernames) by set_solver.
    exists passwords, output, g'.
    split_and!; [done | done | | | |].
    + intros u Hu. apply not_elem_of_dom. by rewrite Hdom'.
    + intros u pw Hu Hpw. apply Hkeep.
      by apply map_lookup_filter_Some.
    + intros u Hu Hnone.
      assert (is_Some (passwords !! u)) as [pw Hpw].
      { apply elem_of_dom. by rewrite Hdom'. }
      exists pw. split; [done |].
      apply (Hfresh u); [| done].
      apply map_lookup_filter_None. by left.
    + apply map_eq. intros u.
      destruct (filtered !! u) as [pw|] eqn:Hu.
      * apply map_lookup_filter_Some.
        split; [by apply Hkeep |]. simpl.
        apply map_lookup_filter_Some in Hu as [Hu _].
        by apply elem_of_dom_2 in Hu.
      * apply map_lookup_filter_None.
        destruct (passwords !! u) as [pw|] eqn:Hpw; [| by left].
        right. intros ? [= <-]. simpl. intros [pw' Hpw']%elem_of_dom.
        apply map_lookup_filter_None in Hu as [Hu | Hu]; [congruence |].
        apply (Hu pw' Hpw'). simpl.
        rewrite <- Hdom'. by apply elem_of_dom_2 in Hpw.
  - intros role_alice role_carol g.
    destruct (_generate_password_Return g) as (secret & g' & Hgen & _ & _).
    exists secret, g'. split_and!; [done | | done].
    unfold init.
    set (alice := {| dict_username := "alice"; dict_role := role_alice |}).
    set (carol := {| dict_username := "carol"; dict_role := role_carol |}).
    assert (filter
              (λ item : string * string,
                 item.1 ∈
                   (list_to_set (dict_username <$> [alice; carol])
                      : gset string))
              (<["alice" := "X"]> {["bob" := "Y"]})
            = ({["alice" := "X"]} : gmap string string)) as ->.
    { apply map_eq. intros u.
      destruct (decide (u = "alice")) as [-> | Halice].
      - rewrite lookup_singleton_eq. apply map_lookup_filter_Some.
        split; [done |]. simpl. set_solver.
      - rewrite lookup_singleton_ne by done.
        apply map_lookup_filter_None.
        destruct (decide (u = "bob")) as [-> | Hbob].
        + right. intros pw _. simpl. set_solver.
        + left. by rewrite lookup_insert_ne, lookup_singleton_ne. }
    rewrite init_loop_cons.
    rewrite (init_user_present _ _ _ alice "X") by done.
    rewrite bind_Return, init_loop_cons.
    rewrite (init_user_absent _ _ _ carol secret g') by done.
    done.
Qed.

End BootstrapProperties.

(** ** The bootstrap on the scripted generator *)

Lemma scripted_index_lt (n : nat) (g : list nat) :
  0 < n → (scripted_index n g).1 < n.
Proof.
  intros Hn. destruct g as [|i g]; simpl; [done |].
  apply Nat.mod_upper_bound. lia.
Qed.

(** *** Equally likely draws *)

Lemma draw_sequences_S (n k : nat) :
  draw_sequences n (S k) = i ← seq 0 n; (i ::.) <$> draw_sequences n k.
Proof. done. Qed.

Lemma draw_sequences_elem (n k : nat) (draws : list nat) :
  draws ∈ draw_sequences n k →
  List.length draws = k ∧ Forall (λ i, i < n) draws.
Proof.
  revert draws. induction k as [|k IH]; intros draws.
  - simpl. intros ->%list_elem_of_singleton. by split.
  - rewrite draw_sequences_S.
    intros (i & (rest & -> & Hrest)%list_elem_of_fmap & Hi)%list_elem_of_bind.
    apply elem_of_seq in Hi. destruct (IH rest Hrest) as [<- Hall].
    split; [done |]. constructor; [lia | done].
Qed.

Lemma filter_length_ext {A} (P Q : A → Prop) `{!∀ x, Decision (P x)}
    `{!∀ x, Decision (Q x)} (l : list A) :
  (∀ x, x ∈ l → P x ↔ Q x) →
  List.length (filter P l) = List.length (filter Q l).
Proof.
  induction l as [|x l IH]; intros Hext; [done |].
  rewrite !filter_cons.
  assert (HPQ : P x ↔ Q x) by (apply Hext; by left).
  assert (Hrest : length (filter P l) = length (filter Q l)).
  { apply IH. intros y Hy. apply Hext. by right. }
  destruct (decide (P x)), (decide (Q x)); simpl; tauto || lia.
Qed.

Lemma count_head (i : nat) (heads : list nat) (tails : list (list nat)) :
  List.length
    (filter (λ draws, draws !! 0 = Some i)
       (a ← heads; (a ::.) <$> tails)) =
  List.length (filter (λ a, a = i) heads) * List.length tails.
Proof.
  induction heads as [|a heads IH]; [done |].
  rewrite bind_cons, filter_app, length_app, IH, filter_cons.
  assert (Hblock :
    List.length (filter (λ draws, draws !! 0 = Some i) ((a ::.) <$> tails)) =
    if decide (a = i) then List.length tails else 0).
  { clear IH. induction tails as [|t tails IHt]; [by destruct (decide _) |].
    rewrite fmap_cons, filter_cons. simpl.
    destruct (decide (a = i)) as [-> | Hne].
    - rewrite decide_True by done. simpl. by rewrite IHt.
    - rewrite decide_False by congruence. done. }
  rewrite Hblock. destruct (decide (a = i)); simpl; lia.
Qed.

Lemma count_tail (i j : nat) (heads : list nat) (tails : list (list nat)) :
  List.length
    (filter (λ draws, draws !! S j = Some i)
       (a ← heads; (a ::.) <$> tails)) =
  List.length heads *
  List.length (filter (λ draws, draws !! j = Some i) tails).
Proof.
  induction heads as [|a heads IH]; [done |].
  rewrite bind_cons, filter_app, length_app, IH.
  assert (Hblock :
    List.length (filter (λ draws, draws !! S j = Some i) ((a ::.) <$> tails)) =
    List.length (filter (λ draws, draws !! j = Some i) tails)).
  { clear IH. induction tails as [|t tails IHt]; [done |].
    rewrite fmap_cons, !filter_cons. simpl.
    destruct (decide (t !! j = Some i)); simpl; by rewrite IHt. }
  rewrite Hblock. simpl. lia.
Qed.

Lemma count_absent (i : nat) (l : list nat) :
  i ∉ l → List.length (filter (λ a, a = i) l) = 0.
Proof.
  induction l as [|a l IH]; [done |].
  intros [Hne Hl]%not_elem_of_cons.
  rewrite filter_cons, decide_False by congruence. by apply IH.
Qed.

Lemma count_NoDup (i : nat) (l : list nat) :
  NoDup l → i ∈ l → List.length (filter (λ a, a = i) l) = 1.
Proof.
  induction 1 as [|a l Ha Hl IH]; [by intros ?%elem_of_nil |].
  rewrite filter_cons. intros [<- | Hi]%elem_of_cons.
  - rewrite decide_True by done. simpl. by rewrite count_absent.
  - rewrite decide_False by (intros ->; done). by apply IH.
Qed.

Lemma length_blocks (heads : list nat) (tails : list (list nat)) :
  List.length (a ← heads; (a ::.) <$> tails) =
  List.length heads * List.length tails.
Proof.
  induction heads as [|a heads IH]; [done |].
  rewrite bind_cons, length_app, length_fmap, IH. simpl. lia.
Qed.

Lemma count_draws (n k i j : nat) :
  i < n → j < k →
  n * List.length (filter (λ draws, draws !! j = Some i) (draw_sequences n k))
  = List.length (draw_sequences n k).
Proof.
  intros Hi. revert j. induction k as [|k IH]; intros j Hj; [lia |].
  assert (Hall : List.length (draw_sequences n (S k)) =
                 n * List.length (draw_sequences n k)).
  { by rewrite draw_sequences_S, length_blocks, length_seq. }
  rewrite Hall, draw_sequences_S.
  destruct j as [|j].
  - rewrite count_head, count_NoDup;
      [lia | apply NoDup_seq | apply elem_of_seq; lia].
  - rewrite count_tail, length_seq.
    rewrite <- (IH j) by lia. lia.
Qed.

Lemma scripted_index_draws (n k : nat) (draws : list nat) :
  List.length draws = k → Forall (λ i, i < n) draws →
  index_draws (list nat) scripted_index n k draws = draws.
Proof.
  revert draws. induction k as [|k IH]; intros [|i draws]; simpl; try done.
  intros [= Hlen] [Hi Hall]%Forall_cons.
  by rewrite Nat.mod_small, IH.
Qed.

Lemma password_char_draw (draws : list nat) (j i : nat) (c : Ascii.ascii) :
  draws ∈ draw_sequences 52 16 →
  chars password_chars !! i = Some c →
  password_char draws j = Some c ↔ draws !! j = Some i.
Proof.
  intros [Hlen Hall]%draw_sequences_elem Hi.
  destruct (_generate_password_Return (list nat) scripted_index
              scripted_index_lt draws)
    as (password & g' & Hgen & _ & Hdraws).
  rewrite (scripted_index_draws 52 16 draws Hlen Hall) in Hdraws.
  unfold password_char. rewrite Hgen. split.
  - intros Hc.
    destruct (Forall2_lookup_l _ _ _ _ _ Hdraws Hc) as (i' & Hi' & Hc').
    rewrite Hi'. f_equal.
    by apply (NoDup_lookup _ _ _ c password_chars_NoDup).
  - intros Hj.
    destruct (Forall2_lookup_r _ _ _ _ _ Hdraws Hj) as (c' & Hc' & Hi').
    rewrite Hc'. congruence.
Qed.

Lemma password_char_uniform (j : nat) (c : Ascii.ascii) :
  j < 16 → c ∈ chars password_chars →
  52 * List.length
         (filter (λ draws, password_char draws j = Some c)
            (draw_sequences 52 16)) =
  List.length (draw_sequences 52 16).
Proof.
  intros Hj [i Hi]%list_elem_of_lookup_1.
  rewrite (filter_length_ext _ (λ draws, draws !! j = Some i))
    by (intros draws Hdraws; by apply password_char_draw).
  apply count_draws; [| done].
  apply lookup_lt_Some in Hi. by rewrite password_chars_length in Hi.
Qed.

(** C6 (as the code has it): [_generate_password] returns a password of
    exactly 16 characters; its characters are, in order, those at the 16
    drawn indices of the alphabet; the alphabet has 52 distinct characters,
    the lowercase and uppercase letters without [i], [j], [l], [o], [I],
    [J], [L], [O] and the digits [2] to [9]; so no password holds a
    character of [iloILO], nor [j] or [J].  Each character is selected
    uniformly from the alphabet: of the equally likely sequences of 16
    draws, exactly one in 52 puts a given character of the alphabet at a
    given position. *)
Theorem generated_password_shape
    (rng : Type) (random_index : nat → rng → nat * rng) :
  (∀ n g, 0 < n → (random_index n g).1 < n) →
  (∀ g : rng,
     ∃ password g',
       _generate_password rng random_index g = Return (password, g') ∧
       String.length password = 16 ∧
       Forall2 (λ c i, chars password_chars !! i = Some c) (chars password)
         (index_draws rng random_index 52 16 g) ∧
       (∀ c, c ∈ chars password →
             c ∈ chars password_chars ∧
             (c ∉ chars "iloILO") ∧ (c ∉ chars "jJ")) ∧
       NoDup (chars password_chars) ∧
       List.length (chars password_chars) = 52 ∧
       chars password_chars =
         filter (λ c, c ∉ chars "ijloIJLO")
           (chars "abcdefghijklmnopqrstuvwxyzABCDEFGHIJKLMNOPQRSTUVWXYZ")
         ++ chars "23456789") ∧
  (∀ j c, j < 16 → c ∈ chars password_chars →
     52 * List.length
            (filter (λ draws, password_char draws j = Some c)
               (draw_sequences 52 16)) =
     List.length (draw_sequences 52 16)).
Proof.
  intros random_index_lt. split; [| apply password_char_uniform].
  intros g.
  destruct (_generate_password_Return rng random_index random_index_lt g)
    as (password & g' & Hgen & Hlen & Hdraws).
  exists password, g'.
  split_and!;
    [done | done | done | | apply password_chars_NoDup | done
    | apply password_chars_letters].
  intros c Hc.
  assert (Hin : c ∈ chars password_chars).
  { apply list_elem_of_lookup in Hc as [j Hj].
    destruct (Forall2_lookup_l _ _ _ _ _ Hdraws Hj) as (i & _ & Hi).
    by apply list_elem_of_lookup_2 in Hi. }
  split; [done |].
  apply password_chars_unambiguous in Hin.
  split; intros Hbad; apply Hin; set_solver.
Qed.

(** The specification's alphabet holds [j] and [J]; the alphabet of the
    code does not, so the two alphabets differ. *)
Lemma alphabet_differs_from_spec :
  ("j"%char ∈ alphabet_of_spec ∧ "j"%char ∉ chars password_chars) ∧
  ("J"%char ∈ alphabet_of_spec ∧ "J"%char ∉ chars password_chars) ∧
  ¬ (∀ c, c ∈ alphabet_of_spec ↔ c ∈ chars password_chars).
Proof.
  assert (Hj : "j"%char ∈ alphabet_of_spec ∧
               "j"%char ∉ chars password_chars) by compute_done.
  split_and!; [apply Hj | apply Hj | compute_done | compute_done |].
  intros Hsame. destruct Hj as [Hin Hout]. by apply Hout, Hsame.
Qed.

Lemma generated_password_shape_witness :
  (∃ password g',
     _generate_password (list nat) scripted_index (seq 36 16) =
       Return (password, g') ∧
     String.length password = 16 ∧
     password = "STUVWXYZ23456789") ∧
  52 * List.length
         (filter (λ draws, password_char draws 3 = Some "Q"%char)
            (draw_sequences 52 16)) =
  List.length (draw_sequences 52 16).
Proof.
  destruct (generated_password_shape (list nat) scripted_index
              scripted_index_lt) as [Hshape Huniform].
  split; [| apply Huniform; [lia | compute_done]].
  destruct (Hshape (seq 36 16)) as (password & g' & Hgen & Hlen & _).
  exists password, g'. split_and!; [exact Hgen | exact Hlen |].
  assert (Hsecret : Return (password, g') =
                    Return ("STUVWXYZ23456789", @nil nat)).
  { rewrite <- Hgen. reflexivity. }
  injection Hsecret as -> ->. reflexivity.
Defined.

Lemma init_reconciles_witness :
  init (list nat) scripted_index (<["alice" := "X"]> {["bob" := "Y"]})
    [ {| dict_username := "alice"; dict_role := "admin" |};
      {| dict_username := "carol"; dict_role := "viewer" |} ] (seq 0 16) =
  Return (<["carol" := "abcdefghkmnpqrst"]> {["alice" := "X"]},
          [ "Password for user 'alice': X";
            "Password for user 'carol': abcdefghkmnpqrst" ], []).
Proof.
  destruct (init_reconciles (list nat) scripted_index scripted_index_lt)
    as [_ Hexample].
  destruct (Hexample "admin" "viewer" (seq 0 16))
    as (secret & g' & Hgen & Hinit & _).
  assert (Hsecret : Return (secret, g') =
                    Return ("abcdefghkmnpqrst", @nil nat)).
  { rewrite <- Hgen. reflexivity. }
  injection Hsecret as -> ->.
  exact Hinit.
Defined.

(** * Further properties of the code *)

(** ** Role lookup, callers and the decision *)

(** X1: [SimpleAuthManagerRole[key]] returns the member whose name is exactly
    [key] and raises [KeyError(key)] for every other string; looking up the
    name of a member gives the member back. *)
Theorem getitem_exact_name (key : string) :
  match getitem key with
  | Return r => name r = key
  | Raise e => e = KeyError key ∧ key ∉ name <$> members
  end ∧
  (∀ r, getitem (name r) = Return r).
Proof.
  split; [| apply getitem_name].
  destruct (getitem key) as [r|e] eqn:Hget.
  - by apply getitem_Return.
  - assert (Hnone : ∀ r, name r ≠ key).
    { intros r Hr. apply getitem_Return in Hr. congruence. }
    rewrite (getitem_Raise key Hnone) in Hget. injection Hget as <-.
    split; [done |].
    intros (r & Hr & _)%list_elem_of_fmap. by destruct (Hnone r).
Qed.

(** X2: [get_user] returns a user only when [is_logged_in] holds, and
    [None] when it does not.  The two differ in one case only:
    [is_logged_in] holds and [get_user] is [None] exactly when the flag is
    off and the session has the key ["user"] with the value [None].  Under
    the all-admins flag [get_user] is the anonymous admin, whatever the
    session holds; without the flag it is the value the session has under
    the key, and [None] without the key. *)
Theorem get_user_logged_in (env : environment) :
  (is_Some (get_user env) → is_logged_in env = true) ∧
  (is_logged_in env = false → get_user env = None) ∧
  (is_logged_in env = true ∧ get_user env = None ↔
   simple_auth_manager_all_admins env = false ∧
   session_user env = Some None) ∧
  (simple_auth_manager_all_admins env = true →
   get_user env = Some {| username := "anonymous"; role := Some "admin" |}) ∧
  (simple_auth_manager_all_admins env = false →
   get_user env =
     match session_user env with
     | Some value => value
     | None => None
     end).
Proof.
  unfold get_user, is_logged_in.
  destruct env as [[[u|]|] [|]]; simpl; split_and!; try done.
  all: try by intros [? [=]].
  all: split; by intros [[=] [=]].
Qed.

Lemma get_user_logged_in_witness :
  get_user
    {| session_user := Some (Some (caller_named "vic" "viewer"));
       simple_auth_manager_all_admins := true |} =
  Some {| username := "anonymous"; role := Some "admin" |}.
Proof.
  destruct (get_user_logged_in
              {| session_user := Some (Some (caller_named "vic" "viewer"));
                 simple_auth_manager_all_admins := true |})
    as (_ & _ & _ & Hflag & _).
  apply Hflag. reflexivity.
Defined.

Section AuthorizationFurther.

Context (upper : string → string).

Implicit Types (env : environment) (method : string).
Implicit Types (allow_role r : SimpleAuthManagerRole).
Implicit Types (allow_get_role : option SimpleAuthManagerRole).
Implicit Types (user : option SimpleAuthManagerUser).
Implicit Types (u : SimpleAuthManagerUser) (s : string).

(** A decision of true is the decision for a caller whose role resolves. *)
Lemma _is_authorized_true_inv env method allow_role allow_get_role user :
  _is_authorized upper env method allow_role allow_get_role user =
    Return true →
  ∃ u s r,
    user_or_current env user = Some u ∧ get_role u = Some s ∧ s ≠ "" ∧
    getitem (upper s) = Return r.
Proof.
  unfold _is_authorized.
  destruct (user_or_current env user) as [u|] eqn:Hu; [| done].
  destruct (get_role u) as [s|] eqn:Hs; [| done].
  destruct s as [|c s]; simpl; [done |].
  destruct (getitem (upper (String c s))) as [r|e] eqn:Hr; [| done].
  intros _. exists u, (String c s), r. by split_and!.
Qed.

(** X3: A role of higher rank keeps every access a role of lower rank has:
    when a caller is allowed, so is, for the same method and policy, every
    caller whose role has at least the same rank. *)
Theorem higher_rank_keeps_access
    env method allow_role allow_get_role user1 user2 u1 u2 s1 s2 r1 r2 :
  user_or_current env user1 = Some u1 →
  get_role u1 = Some s1 → s1 ≠ "" → getitem (upper s1) = Return r1 →
  user_or_current env user2 = Some u2 →
  get_role u2 = Some s2 → s2 ≠ "" → getitem (upper s2) = Return r2 →
  (order r1 ≤ order r2)%Z →
  _is_authorized upper env method allow_role allow_get_role user1 =
    Return true →
  _is_authorized upper env method allow_role allow_get_role user2 =
    Return true.
Proof.
  intros Hu1 Hs1 Hne1 Hr1 Hu2 Hs2 Hne2 Hr2 Hle.
  rewrite (_is_authorized_by_rank _ _ _ _ _ _ u1 s1 r1) by done.
  rewrite (_is_authorized_by_rank _ _ _ _ _ _ u2 s2 r2) by done.
  intros [= Hallowed]. f_equal.
  rewrite Z.geb_leb, Z.leb_le in *. lia.
Qed.

(** Reading is never harder than writing when the read-only minimum is at
    most the general minimum. *)
Lemma _is_authorized_GET env method allow_role allow_get_role user :
  (∀ read_minimum, allow_get_role = Some read_minimum →
                   (order read_minimum ≤ order allow_role)%Z) →
  _is_authorized upper env method allow_role allow_get_role user =
    Return true →
  _is_authorized upper env "GET" allow_role allow_get_role user =
    Return true.
Proof.
  intros Hread Hallowed.
  destruct (_is_authorized_true_inv _ _ _ _ _ Hallowed)
    as (u & s & r & Hu & Hs & Hne & Hr).
  revert Hallowed.
  rewrite !(_is_authorized_by_rank _ _ _ _ _ _ u s r) by done.
  intros [= Hallowed]. f_equal.
  rewrite Z.geb_leb, Z.leb_le in *.
  unfold effective_minimum in *.
  destruct allow_get_role as [read_minimum|]; [| done].
  specialize (Hread read_minimum eq_refl). simpl.
  case_bool_decide; lia.
Qed.

(** X4: Whoever is allowed some method on a configuration, connection,
    variable, pool, asset or dag is allowed ["GET"] on it. *)
Theorem allowed_method_allows_GET env method user :
  (is_authorized_configuration upper env method user = Return true →
   is_authorized_configuration upper env "GET" user = Return true) ∧
  (is_authorized_connection upper env method user = Return true →
   is_authorized_connection upper env "GET" user = Return true) ∧
  (is_authorized_variable upper env method user = Return true →
   is_authorized_variable upper env "GET" user = Return true) ∧
  (is_authorized_pool upper env method user = Return true →
   is_authorized_pool upper env "GET" user = Return true) ∧
  (is_authorized_asset upper env method user = Return true →
   is_authorized_asset upper env "GET" user = Return true) ∧
  (is_authorized_dag upper env method user = Return true →
   is_authorized_dag upper env "GET" user = Return true).
Proof.
  split_and!; apply _is_authorized_GET; intros ? [= <-]; simpl; lia.
Qed.

(** X5: [_is_authorized] raises exactly when the caller has a role name that
    is not empty and, upper-cased, is the name of no member; what it raises
    then is the [KeyError] of that upper-cased name.  In every other case
    it returns. *)
Theorem _is_authorized_raises_iff
    env method allow_role allow_get_role user e :
  _is_authorized upper env method allow_role allow_get_role user = Raise e ↔
  ∃ u s,
    user_or_current env user = Some u ∧ get_role u = Some s ∧ s ≠ "" ∧
    (∀ r, name r ≠ upper s) ∧ e = KeyError (upper s).
Proof.
  split.
  - unfold _is_authorized.
    destruct (user_or_current env user) as [u|] eqn:Hu; [| done].
    destruct (get_role u) as [s|] eqn:Hs; [| done].
    destruct s as [|c s]; simpl; [done |].
    destruct (getitem (upper (String c s))) as [r|e'] eqn:Hr; simpl.
    + destruct (role_eqb r ADMIN); [done |].
      by destruct (String.eqb method "GET").
    + intros [= ->]. exists u, (String c s).
      assert (Hnone : ∀ r, name r ≠ upper (String c s)).
      { intros r Hname. apply getitem_Return in Hname. congruence. }
      rewrite (getitem_Raise _ Hnone) in Hr. injection Hr as <-.
      by split_and!.
  - intros (u & s & Hu & Hs & Hne & Hnone & ->).
    by apply (_is_authorized_unresolved _ _ _ _ _ _ u s).
Qed.

(** X6: Under the all-admins flag a decision made without a [user] argument is
    true for every method and every policy, whoever is in the session.  A
    caller passed as argument is decided on their own role: the flag and the
    session do not enter the decision. *)
Theorem all_admins_without_user env method allow_role allow_get_role :
  upper "admin" = "ADMIN" →
  simple_auth_manager_all_admins env = true →
  _is_authorized upper env method allow_role allow_get_role None =
    Return true ∧
  (∀ env' u,
     _is_authorized upper env method allow_role allow_get_role (Some u) =
     _is_authorized upper env' method allow_role allow_get_role (Some u)).
Proof.
  intros Hupper Hflag. split; [| done].
  apply (_is_authorized_resolved upper env method allow_role allow_get_role
           None {| username := "anonymous"; role := Some "admin" |}
           "admin" ADMIN); try done.
  - unfold user_or_current, get_user, is_logged_in. rewrite Hflag.
    by destruct (session_user env).
  - by rewrite Hupper.
Qed.

(** X7: The decision reads a caller through the upper-cased role name alone:
    two callers whose role names are not empty and agree once upper-cased
    get the same decision, whatever their usernames and the case of the
    names. *)
Theorem decision_by_upper_role
    env method allow_role allow_get_role u1 u2 s1 s2 :
  get_role u1 = Some s1 → s1 ≠ "" →
  get_role u2 = Some s2 → s2 ≠ "" →
  upper s1 = upper s2 →
  _is_authorized upper env method allow_role allow_get_role (Some u1) =
  _is_authorized upper env method allow_role allow_get_role (Some u2).
Proof.
  intros Hs1 Hne1 Hs2 Hne2 Hupper. unfold _is_authorized. simpl.
  by rewrite Hs1, Hs2, (str_truthy_ne s1 Hne1), (str_truthy_ne s2 Hne2),
    Hupper.
Qed.

End AuthorizationFurther.

Lemma higher_rank_keeps_access_witness :
  _is_authorized upper_ascii nobody_logged_in "POST" USER (Some VIEWER)
    (Some (caller_named "olga" "op")) = Return true.
Proof.
  apply (higher_rank_keeps_access upper_ascii nobody_logged_in "POST" USER
           (Some VIEWER) (Some (caller_named "ann" "user"))
           (Some (caller_named "olga" "op"))
           (caller_named "ann" "user") (caller_named "olga" "op")
           "user" "op" USER OP).
  - reflexivity.
  - reflexivity.
  - discriminate.
  - reflexivity.
  - reflexivity.
  - reflexivity.
  - discriminate.
  - reflexivity.
  - simpl. lia.
  - reflexivity.
Defined.

Lemma allowed_method_allows_GET_witness :
  is_authorized_dag upper_ascii nobody_logged_in "GET"
    (Some (caller_named "ann" "user")) = Return true.
Proof.
  destruct (allowed_method_allows_GET upper_ascii nobody_logged_in "DELETE"
              (Some (caller_named "ann" "user")))
    as (_ & _ & _ & _ & _ & Hdag).
  apply Hdag. reflexivity.
Defined.

Lemma _is_authorized_raises_iff_witness :
  ∃ u s,
    user_or_current nobody_logged_in (Some (caller_named "bob" "guest")) =
      Some u ∧
    get_role u = Some s ∧ s ≠ "" ∧
    (∀ r, name r ≠ upper_ascii s) ∧
    KeyError "GUEST" = KeyError (upper_ascii s).
Proof.
  apply (_is_authorized_raises_iff upper_ascii nobody_logged_in "PUT" OP
           None (Some (caller_named "bob" "guest")) (KeyError "GUEST")).
  reflexivity.
Defined.

Lemma all_admins_without_user_witness :
  _is_authorized upper_ascii
    {| session_user := Some (Some (caller_named "vic" "viewer"));
       simple_auth_manager_all_admins := true |}
    "DELETE" OP None None = Return true.
Proof.
  apply (all_admins_without_user upper_ascii
           {| session_user := Some (Some (caller_named "vic" "viewer"));
              simple_auth_manager_all_admins := true |}
           "DELETE" OP None).
  - reflexivity.
  - reflexivity.
Defined.

Lemma decision_by_upper_role_witness :
  _is_authorized upper_ascii nobody_logged_in "PUT" OP None
    (Some (caller_named "olga" "Op")) =
  _is_authorized upper_ascii nobody_logged_in "PUT" OP None
    (Some (caller_named "oscar" "oP")).
Proof.
  apply (decision_by_upper_role upper_ascii nobody_logged_in "PUT" OP None
           (caller_named "olga" "Op") (caller_named "oscar" "oP")
           "Op" "oP").
  - reflexivity.
  - discriminate.
  - reflexivity.
  - discriminate.
  - reflexivity.
Defined.

(** ** Configured users *)

Lemma append_String (c : Ascii.ascii) (a b : string) :
  String c a +:+ b = String c (a +:+ b).
Proof. done. Qed.

Lemma append_assoc (a b c : string) : (a +:+ b) +:+ c = a +:+ b +:+ c.
Proof.
  induction a as [|x a IH]; [done |].
  by rewrite !append_String, IH.
Qed.

Lemma str_split_not_nil (sep : Ascii.ascii) (s : string) :
  str_split sep s ≠ [].
Proof.
  destruct s as [|c s]; simpl; [done |].
  destruct (Ascii.eqb c sep); [done |].
  by destruct (str_split sep s).
Qed.

(** Splitting distributes over a separator. *)
Lemma str_split_append (sep : Ascii.ascii) (a b : string) :
  str_split sep (a +:+ String sep b) = str_split sep a ++ str_split sep b.
Proof.
  induction a as [|c a IH].
  - simpl. change (EmptyString +:+ String sep b) with (String sep b).
    simpl. by rewrite Ascii.eqb_refl.
  - rewrite append_String. simpl. rewrite IH.
    destruct (Ascii.eqb c sep); [done |].
    pose proof (str_split_not_nil sep a) as Hnil.
    by destruct (str_split sep a).
Qed.

Lemma str_split_no_sep (sep : Ascii.ascii) (s : string) :
  sep ∉ chars s → str_split sep s = [s].
Proof.
  induction s as [|c s IH]; simpl; [done |].
  intros Hsep. apply not_elem_of_cons in Hsep as [Hc Hs].
  destruct (Ascii.eqb_spec c sep) as [-> | _]; [done |].
  by rewrite (IH Hs).
Qed.

Lemma str_split_one (sep : Ascii.ascii) (s a : string) :
  str_split sep s = [a] → s = a ∧ sep ∉ chars a.
Proof.
  revert a. induction s as [|c s IH]; intros a; simpl.
  - intros [= <-]. split; [done | apply not_elem_of_nil].
  - destruct (Ascii.eqb_spec c sep) as [-> | Hc].
    + intros [= _ Hs]. by destruct (str_split_not_nil sep s).
    + destruct (str_split sep s) as [|part parts] eqn:Hsplit.
      * by destruct (str_split_not_nil sep s).
      * intros [= <- ->]. destruct (IH part eq_refl) as [-> Hpart].
        split; [done |]. simpl. apply not_elem_of_cons. by split.
Qed.

Lemma str_split_two (sep : Ascii.ascii) (s a b : string) :
  str_split sep s = [a; b] →
  s = a +:+ String sep b ∧ (sep ∉ chars a) ∧ (sep ∉ chars b).
Proof.
  revert a. induction s as [|c s IH]; intros a; simpl; [done |].
  destruct (Ascii.eqb_spec c sep) as [-> | Hc].
  - intros [= <- Hs]. apply str_split_one in Hs as [-> Hb].
    split_and!; [done | apply not_elem_of_nil | done].
  - destruct (str_split sep s) as [|part parts] eqn:Hsplit; [done |].
    intros [= <- ->]. destruct (IH part eq_refl) as (-> & Hpart & Hb).
    split_and!; [done | | done].
    simpl. apply not_elem_of_cons. by split.
Qed.

Lemma str_split_user_entry (user : user_dict) :
  ":"%char ∉ chars (dict_username user) →
  ":"%char ∉ chars (dict_role user) →
  str_split ":" (user_entry user) = [dict_username user; dict_role user].
Proof.
  intros Hname Hrole. unfold user_entry.
  change (":" +:+ dict_role user) with (String ":" (dict_role user)).
  by rewrite str_split_append, !str_split_no_sep.
Qed.

(** X8: [get_users] returns exactly on a list of entries [username:role] with
    one colon each, and returns the users with the text before and after
    the colon, unchanged and in order.  So reading back the entries of
    users whose names and roles hold no colon gives these users. *)
Theorem get_users_Unpacked_iff
    (simple_auth_manager_users : list string) (users : list user_dict) :
  get_users simple_auth_manager_users = Unpacked users ↔
  Forall2
    (λ entry user,
       entry = user_entry user ∧
       (":"%char ∉ chars (dict_username user)) ∧
       (":"%char ∉ chars (dict_role user)))
    simple_auth_manager_users users.
Proof.
  unfold get_users. revert users.
  induction simple_auth_manager_users as [|entry entries IH]; intros users.
  - simpl.
    split; [intros [= <-]; constructor | by intros ->%Forall2_nil_inv_l].
  - rewrite fmap_cons. cbn [unpack_users]. split.
    + destruct (str_split ":" entry) as [|a [|b [|c parts]]] eqn:Hsplit;
        cbn [unpack_user]; try done.
      destruct (unpack_users (str_split ":" <$> entries)) as [rest|]
        eqn:Hrest; [| done].
      intros [= <-].
      apply str_split_two in Hsplit as (-> & Ha & Hb).
      constructor; [done | by apply IH].
    + intros (user & rest & (-> & Hname & Hrole) & Hrest & ->)
        %Forall2_cons_inv_l.
      rewrite (str_split_user_entry user Hname Hrole). cbn [unpack_user].
      apply IH in Hrest. rewrite Hrest. by destruct user.
Qed.

Lemma unpack_users_app_Failed
    (goods : list (list string)) (users : list user_dict)
    (bad : list string) (later : list (list string)) (e : ValueError) :
  unpack_users goods = Unpacked users →
  unpack_user bad = Failed e →
  unpack_users (goods ++ bad :: later) = Failed e.
Proof.
  intros Hgoods Hbad. revert users Hgoods.
  induction goods as [|good goods IH]; intros users; cbn [unpack_users app].
  - by rewrite Hbad.
  - destruct (unpack_user good) as [user|]; [| done].
    destruct (unpack_users goods) as [rest|]; [| done].
    intros _. by rewrite (IH rest eq_refl).
Qed.

Lemma str_split_length (sep : Ascii.ascii) (s : string) :
  1 ≤ List.length (str_split sep s).
Proof.
  pose proof (str_split_not_nil sep s).
  destruct (str_split sep s); simpl; [done | lia].
Qed.

Lemma unpack_user_too_many (parts : list string) :
  3 ≤ List.length parts → unpack_user parts = Failed too_many_values.
Proof. destruct parts as [|a [|b [|c parts]]]; simpl; (done || lia). Qed.

(** X9: The first entry that is not of the form [username:role] decides the
    error: with no colon the unpacking has not enough values, with two
    colons or more it has too many. *)
Theorem get_users_first_malformed
    (well_formed : list string) (users : list user_dict)
    (entry : string) (later : list string) :
  get_users well_formed = Unpacked users →
  ((":"%char ∉ chars entry) →
   get_users (well_formed ++ entry :: later) =
     Failed (not_enough_values 1)) ∧
  (∀ a b c, entry = a +:+ ":" +:+ b +:+ ":" +:+ c →
   get_users (well_formed ++ entry :: later) = Failed too_many_values).
Proof.
  unfold get_users. intros Hgood. rewrite fmap_app, fmap_cons. split.
  - intros Hentry. apply (unpack_users_app_Failed _ users); [done |].
    by rewrite str_split_no_sep.
  - intros a b c ->. apply (unpack_users_app_Failed _ users); [done |].
    change (":" +:+ b +:+ ":" +:+ c) with (String ":" (b +:+ String ":" c)).
    rewrite !str_split_append. apply unpack_user_too_many.
    rewrite !length_app.
    pose proof (str_split_length ":" a).
    pose proof (str_split_length ":" b).
    pose proof (str_split_length ":" c).
    lia.
Qed.

Lemma get_users_Unpacked_iff_witness :
  get_users ["alice:admin"; "bob:viewer"] =
    Unpacked [ {| dict_username := "alice"; dict_role := "admin" |};
               {| dict_username := "bob"; dict_role := "viewer" |} ].
Proof.
  apply (get_users_Unpacked_iff ["alice:admin"; "bob:viewer"]).
  repeat constructor; compute_done.
Defined.

Lemma get_users_first_malformed_witness :
  get_users ["alice:admin"; "bob"; "carol:op"] =
    Failed (not_enough_values 1).
Proof.
  destruct (get_users_first_malformed ["alice:admin"]
              [ {| dict_username := "alice"; dict_role := "admin" |} ]
              "bob" ["carol:op"] eq_refl) as [Hfew _].
  apply Hfew. compute_done.
Defined.

(** ** The password file *)

Lemma endswith_append (a : string) (sep : Ascii.ascii) :
  endswith (a +:+ String sep EmptyString) sep = true.
Proof.
  induction a as [|c a IH].
  - simpl. apply Ascii.eqb_refl.
  - rewrite append_String.
    destruct (a +:+ String sep EmptyString) as [|c' rest] eqn:Happ.
    + by destruct a.
    + done.
Qed.

(** X10: The password file is [simple_auth_manager_passwords.json.generated]
    inside a directory: the path is a prefix followed by that name, and the
    prefix is empty or ends with [/].  The directory is the value of
    [AIRFLOW_AUTH_MANAGER_CREDENTIAL_DIRECTORY] whenever the variable is
    set, also when it is set to the empty string (the path is then the bare
    file name), and [AIRFLOW_HOME] only when it is not set. *)
Theorem generated_password_file_location
    (environ : gmap string string) (AIRFLOW_HOME : string) :
  let directory :=
    os_getenv environ "AIRFLOW_AUTH_MANAGER_CREDENTIAL_DIRECTORY"
      AIRFLOW_HOME in
  (∃ prefix,
     get_generated_password_file environ AIRFLOW_HOME =
       prefix +:+ "simple_auth_manager_passwords.json.generated" ∧
     (prefix = "" ∨ endswith prefix "/" = true) ∧
     (prefix = directory ∨ prefix = directory +:+ "/")) ∧
  (∀ d, environ !! "AIRFLOW_AUTH_MANAGER_CREDENTIAL_DIRECTORY" = Some d →
        directory = d) ∧
  (environ !! "AIRFLOW_AUTH_MANAGER_CREDENTIAL_DIRECTORY" = None →
   directory = AIRFLOW_HOME) ∧
  (directory = "" →
   get_generated_password_file environ AIRFLOW_HOME =
     "simple_auth_manager_passwords.json.generated").
Proof.
  intros directory. split_and!.
  - unfold get_generated_password_file. fold directory.
    unfold os_path_join. simpl.
    destruct (str_truthy directory) eqn:Htruthy; simpl.
    + destruct (endswith directory "/") eqn:Hends.
      * exists directory. split_and!; [done | by right | by left].
      * exists (directory +:+ "/"). split_and!.
        -- by rewrite append_assoc.
        -- right. apply endswith_append.
        -- by right.
    + exists directory. split_and!; [done | | by left].
      left. by destruct directory.
  - intros d Hd. unfold directory, os_getenv. by rewrite Hd.
  - intros Hnone. unfold directory, os_getenv. by rewrite Hnone.
  - intros Hempty. unfold get_generated_password_file. fold directory.
    by rewrite Hempty.
Qed.

Lemma generated_password_file_location_witness :
  get_generated_password_file
    {[ "AIRFLOW_AUTH_MANAGER_CREDENTIAL_DIRECTORY" := "" ]} "/opt/airflow" =
  "simple_auth_manager_passwords.json.generated".
Proof.
  destruct (generated_password_file_location
              {[ "AIRFLOW_AUTH_MANAGER_CREDENTIAL_DIRECTORY" := "" ]}
              "/opt/airflow") as (_ & _ & _ & Hempty).
  apply Hempty. reflexivity.
Defined.

(** ** Tokens *)

Section SerializationProperties.

Context {value : Type}.

Implicit Types (token : gmap string value) (user : user_attributes value).

(** X11: Serializing a user and deserializing the token gives the user back,
    and the token has the two keys [username] and [role] only.  In the
    other direction, a token that deserializes holds what the serialized
    user holds; any other key it has is lost. *)
Theorem token_round_trip user token :
  deserialize_user (serialize_user user) = Return user ∧
  dom (serialize_user user) = ({["username"; "role"]} : gset string) ∧
  (deserialize_user token = Return user →
   serialize_user user ⊆ token ∧
   (dom token ⊆ ({["username"; "role"]} : gset string) →
    serialize_user user = token)).
Proof.
  split_and!.
  - by destruct user.
  - unfold serialize_user. rewrite !dom_insert_L. set_solver.
  - unfold deserialize_user, token_getitem.
    destruct (token !! "username") as [username|] eqn:Hname; [| done].
    destruct (token !! "role") as [role|] eqn:Hrole; [| done].
    intros [= <-]. unfold serialize_user. simpl.
    assert (Hsub : <["role" := role]> (<["username" := username]> ∅)
                     ⊆ token).
    { apply insert_subseteq_l; [done |].
      apply insert_subseteq_l; [done |]. apply map_empty_subseteq. }
    split; [done |].
    intros Hdom. apply map_eq. intros key.
    destruct (decide (key = "role")) as [-> | Hkrole].
    { by rewrite lookup_insert_eq. }
    rewrite lookup_insert_ne by done.
    destruct (decide (key = "username")) as [-> | Hkname].
    { by rewrite lookup_insert_eq. }
    rewrite lookup_insert_ne, lookup_empty by done.
    symmetry. apply not_elem_of_dom. set_solver.
Qed.

(** X12: [deserialize_user] returns exactly when the token has both keys.  A
    token without [username] raises [KeyError("username")], also when
    [role] is missing too; a token with [username] and without [role]
    raises [KeyError("role")]. *)
Theorem deserialize_user_KeyError token :
  ((∃ user, deserialize_user token = Return user) ↔
   is_Some (token !! "username") ∧ is_Some (token !! "role")) ∧
  (token !! "username" = None →
   deserialize_user token = Raise (KeyError "username")) ∧
  (is_Some (token !! "username") → token !! "role" = None →
   deserialize_user token = Raise (KeyError "role")).
Proof.
  unfold deserialize_user, token_getitem.
  destruct (token !! "username") as [username|];
    destruct (token !! "role") as [role|]; simpl.
  all: split_and!; try done; unfold is_Some; naive_solver.
Qed.

End SerializationProperties.

Lemma token_round_trip_witness :
  serialize_user
    {| attribute_username := "alice"; attribute_role := "admin" |} =
  <["role" := "admin"]> {["username" := "alice"]}.
Proof.
  destruct (token_round_trip
              {| attribute_username := "alice"; attribute_role := "admin" |}
              (<["role" := "admin"]> {["username" := "alice"]}))
    as (_ & _ & Hback).
  destruct (Hback eq_refl) as [_ Hsame].
  apply Hsame. rewrite !dom_insert_L. set_solver.
Defined.

Lemma deserialize_user_KeyError_witness :
  deserialize_user ({["email" := "a@example.org"]} : gmap string string) =
    Raise (KeyError "username").
Proof.
  destruct (deserialize_user_KeyError
              ({["email" := "a@example.org"]} : gmap string string))
    as (_ & Hname & _).
  apply Hname. reflexivity.
Defined.

(** ** More on the password store *)

Section BootstrapFurther.

Context (rng : Type) (random_index : nat → rng → nat * rng).

Implicit Types (passwords : gmap string string) (output : list string).
Implicit Types (user : user_dict) (users : list user_dict).

(** What a run of the loop that returns has done. *)
Lemma init_loop_inv users passwords output g passwords' output' g' :
  init_loop rng random_index users (passwords, output, g) =
    Return (passwords', output', g') →
  passwords ⊆ passwords' ∧
  dom passwords' = dom passwords ∪ list_to_set (dict_username <$> users) ∧
  output' = output ++ printed_for passwords' users.
Proof.
  revert passwords output g.
  induction users as [|user users IH]; intros passwords output g.
  - simpl. intros [= <- <- <-].
    split_and!; [done | by rewrite (right_id_L ∅ (∪)) |].
    unfold printed_for. simpl. by rewrite (right_id_L [] (++)).
  - rewrite init_loop_cons.
    destruct (passwords !! dict_username user) as [password|] eqn:Hlook.
    + rewrite (init_user_present _ _ _ _ _ _ password Hlook), bind_Return.
      intros (Hsub & Hdom & ->)%IH. split_and!; [done | |].
      * rewrite Hdom. apply (elem_of_dom_2 passwords) in Hlook.
        rewrite fmap_cons, list_to_set_cons. set_solver.
      * unfold printed_for. rewrite fmap_cons, <- (assoc_L (++)). simpl.
        by rewrite (lookup_total_correct passwords' _ password)
          by (by eapply lookup_weaken).
    + destruct (_generate_password rng random_index g)
        as [[password g1]|e] eqn:Hgen.
      2: { unfold init_user.
           rewrite bool_decide_eq_true_2 by (by apply not_elem_of_dom).
           by rewrite Hgen. }
      rewrite (init_user_absent _ _ _ _ _ _ password g1 Hlook Hgen),
        bind_Return.
      intros (Hsub & Hdom & ->)%IH. split_and!.
      * etrans; [| exact Hsub]. by apply insert_subseteq.
      * rewrite Hdom, dom_insert_L, fmap_cons, list_to_set_cons. set_solver.
      * unfold printed_for. rewrite fmap_cons, <- (assoc_L (++)). simpl.
        rewrite (lookup_total_correct passwords' _ password); [done |].
        eapply lookup_weaken; [| exact Hsub]. apply lookup_insert_eq.
Qed.

(** With a password for every user the loop generates nothing. *)
Lemma init_loop_all_present users passwords output g :
  (∀ user, user ∈ users → is_Some (passwords !! dict_username user)) →
  init_loop rng random_index users (passwords, output, g) =
    Return (passwords, output ++ printed_for passwords users, g).
Proof.
  revert output.
  induction users as [|user users IH]; intros output Hall.
  - unfold printed_for. simpl. by rewrite (right_id_L [] (++)).
  - rewrite init_loop_cons.
    destruct (Hall user) as [password Hlook]; [by left |].
    rewrite (init_user_present _ _ _ _ _ _ password Hlook), bind_Return.
    rewrite IH by (intros user' Huser'; apply Hall; by right).
    unfold printed_for. rewrite fmap_cons, <- (assoc_L (++)). simpl.
    by rewrite (lookup_total_correct passwords _ password).
Qed.

Lemma filter_configured passwords users :
  (∀ user, user ∈ users → is_Some (passwords !! dict_username user)) →
  ∀ user, user ∈ users →
    filter (λ item : string * string,
              item.1 ∈ (list_to_set (dict_username <$> users) : gset string))
      passwords !! dict_username user =
    passwords !! dict_username user.
Proof.
  intros Hall user Huser. destruct (Hall user Huser) as [password Hlook].
  rewrite Hlook. apply map_lookup_filter_Some. split; [done |]. simpl.
  apply elem_of_list_to_set, list_elem_of_fmap. by exists user.
Qed.

(** X13: When [init] returns it has printed one message per configured user,
    in the order of the list and twice for a user listed twice, each with
    the password the returned store holds for that user; every configured
    user has an entry. *)
Theorem init_output (user_passwords_from_file : gmap string string)
    users g passwords output g' :
  init rng random_index user_passwords_from_file users g =
    Return (passwords, output, g') →
  output = printed_for passwords users ∧
  List.length output = List.length users ∧
  (∀ user, user ∈ users → is_Some (passwords !! dict_username user)).
Proof.
  unfold init. intros (_ & Hdom & ->)%init_loop_inv.
  split_and!; [done | unfold printed_for; simpl; by rewrite length_fmap |].
  intros user Huser. apply elem_of_dom. rewrite Hdom.
  apply elem_of_union_r, elem_of_list_to_set, list_elem_of_fmap.
  by exists user.
Qed.

(** X14: When the file holds a password for every configured user, [init]
    generates nothing: it returns the entries of the file for the
    configured users and leaves the generator as it was, whatever the
    generator would draw. *)
Theorem init_without_generation
    (user_passwords_from_file : gmap string string) users g :
  (∀ user, user ∈ users →
     is_Some (user_passwords_from_file !! dict_username user)) →
  init rng random_index user_passwords_from_file users g =
    Return
      (filter (λ item : string * string,
                 item.1 ∈
                   (list_to_set (dict_username <$> users) : gset string))
         user_passwords_from_file,
       printed_for user_passwords_from_file users, g).
Proof.
  intros Hall. unfold init.
  rewrite init_loop_all_present.
  - do 3 f_equal. simpl. unfold printed_for.
    apply Forall_fmap_ext_1, Forall_forall. intros user Huser.
    f_equal. unfold lookup_total, map_lookup_total.
    by rewrite (filter_configured _ users Hall user Huser).
  - intros user Huser. rewrite (filter_configured _ users Hall user Huser).
    by apply Hall.
Qed.

(** X15: Running [init] again on the store it returned, with the same users,
    returns the same store and prints the same messages, and generates
    nothing. *)
Theorem init_idempotent (user_passwords_from_file : gmap string string)
    users g passwords output g' :
  init rng random_index user_passwords_from_file users g =
    Return (passwords, output, g') →
  ∀ g2, init rng random_index passwords users g2 =
          Return (passwords, output, g2).
Proof.
  unfold init at 1. intros (Hsub & Hdom & ->)%init_loop_inv g2.
  assert (Hdom' : dom passwords =
                  (list_to_set (dict_username <$> users) : gset string)).
  { assert (dom (filter (λ item : string * string,
                      item.1 ∈ (list_to_set (dict_username <$> users)
                                  : gset string))
                   user_passwords_from_file)
            ⊆ (list_to_set (dict_username <$> users) : gset string)).
    { intros u [pw Hu]%elem_of_dom.
      by apply map_lookup_filter_Some in Hu as [_ Hu]. }
    set_solver. }
  unfold init.
  rewrite map_filter_id.
  - rewrite init_loop_all_present; [done |].
    intros user Huser. apply elem_of_dom. rewrite Hdom'.
    apply elem_of_list_to_set, list_elem_of_fmap. by exists user.
  - intros u pw Hu. simpl. rewrite <- Hdom'. by apply elem_of_dom_2 in Hu.
Qed.

Lemma init_user_username (st : init_state rng) user user' :
  dict_username user = dict_username user' →
  init_user rng random_index st user = init_user rng random_index st user'.
Proof. intros Hname. unfold init_user. by rewrite Hname. Qed.

(** X16: [init] reads the usernames of the configured users only: changing the
    roles changes neither the store nor the messages nor what is
    generated. *)
Theorem init_ignores_roles (user_passwords_from_file : gmap string string)
    users users' g :
  dict_username <$> users = dict_username <$> users' →
  init rng random_index user_passwords_from_file users g =
  init rng random_index user_passwords_from_file users' g.
Proof.
  intros Hnames. unfold init. rewrite Hnames.
  generalize (filter (λ item : string * string,
                        item.1 ∈ (list_to_set (dict_username <$> users')
                                    : gset string))
                user_passwords_from_file, @nil string, g).
  revert users' Hnames.
  induction users as [|user users IH]; intros [|user' users'] Hnames st;
    try done.
  rewrite !fmap_cons in Hnames. injection Hnames as Hname Hnames.
  rewrite !init_loop_cons, (init_user_username st user user' Hname).
  destruct (init_user rng random_index st user') as [st'|e]; [| done].
  rewrite !bind_Return. by apply IH.
Qed.

End BootstrapFurther.


Lemma init_output_witness :
  List.length
    [ "Password for user 'alice': X";
      "Password for user 'carol': abcdefghkmnpqrst" ] = 2.
Proof.
  destruct (init_output (list nat) scripted_index
              (<["alice" := "X"]> {["bob" := "Y"]})
              [ {| dict_username := "alice"; dict_role := "admin" |};
                {| dict_username := "carol"; dict_role := "viewer" |} ]
              (seq 0 16)
              (<["carol" := "abcdefghkmnpqrst"]> {["alice" := "X"]})
              [ "Password for user 'alice': X";
                "Password for user 'carol': abcdefghkmnpqrst" ] [])
    as (_ & Hlength & _).
  - vm_compute. reflexivity.
  - exact Hlength.
Defined.

Lemma init_without_generation_witness :
  init (list nat) scripted_index (<["alice" := "X"]> {["bob" := "Y"]})
    [ {| dict_username := "alice"; dict_role := "admin" |} ] [7; 8; 9] =
  Return ({["alice" := "X"]}, [ "Password for user 'alice': X" ], [7; 8; 9]).
Proof.
  rewrite (init_without_generation (list nat) scripted_index).
  - vm_compute. reflexivity.
  - intros user ->%list_elem_of_singleton. by eexists.
Defined.

Lemma init_idempotent_witness :
  init (list nat) scripted_index
    (<["carol" := "abcdefghkmnpqrst"]> {["alice" := "X"]})
    [ {| dict_username := "alice"; dict_role := "admin" |};
      {| dict_username := "carol"; dict_role := "viewer" |} ] [51] =
  Return (<["carol" := "abcdefghkmnpqrst"]> {["alice" := "X"]},
          [ "Password for user 'alice': X";
            "Password for user 'carol': abcdefghkmnpqrst" ], [51]).
Proof.
  apply (init_idempotent (list nat) scripted_index
           (<["alice" := "X"]> {["bob" := "Y"]}) _ (seq 0 16) _ _ []).
  vm_compute. reflexivity.
Defined.

Lemma init_ignores_roles_witness :
  init (list nat) scripted_index ∅
    [ {| dict_username := "alice"; dict_role := "admin" |} ] (seq 0 16) =
  init (list nat) scripted_index ∅
    [ {| dict_username := "alice"; dict_role := "viewer" |} ] (seq 0 16).
Proof.
  apply (init_ignores_roles (list nat) scripted_index).
  reflexivity.
Defined.

(** ** More on generated passwords *)

Section PasswordFurther.

Context (rng : Type) (random_index : nat → rng → nat * rng).

(** What a call of [choices] that returns has drawn. *)
Lemma choices_inv (population : list Ascii.ascii) (k : nat) (g : rng)
    (cs : list Ascii.ascii) (g' : rng) :
  choices rng random_index population k g = Return (cs, g') →
  List.length cs = k ∧
  Forall2 (λ c i, population !! i = Some c) cs
    (index_draws rng random_index (List.length population) k g).
Proof.
  revert g cs g'. induction k as [|k IH]; intros g cs g'; simpl.
  - intros [= <- _]. by split; [| constructor].
  - destruct (random_index (List.length population) g) as [i g1].
    destruct (population !! i) as [c|] eqn:Hc; [| done].
    destruct (choices rng random_index population k g1) as [[cs' g2]|e]
      eqn:Hrest; [| done].
    simpl. intros [= <- _]. destruct (IH g1 cs' g2 Hrest) as [Hlen Hall].
    split; [simpl; by rewrite Hlen | by constructor].
Qed.

(** X17: A password tells the indices that were drawn for it: two calls that
    return the same password have drawn the same 16 indices.  So distinct
    sequences of draws give distinct passwords. *)
Theorem password_determines_draws (g1 g2 g1' g2' : rng) (password : string) :
  _generate_password rng random_index g1 = Return (password, g1') →
  _generate_password rng random_index g2 = Return (password, g2') →
  index_draws rng random_index 52 16 g1 =
  index_draws rng random_index 52 16 g2.
Proof.
  unfold _generate_password.
  destruct (choices rng random_index (chars password_chars) 16 g1)
    as [[cs1 h1]|e1] eqn:Hcs1; [| done].
  destruct (choices rng random_index (chars password_chars) 16 g2)
    as [[cs2 h2]|e2] eqn:Hcs2; [| done].
  intros Hfirst Hsecond. simpl in Hfirst, Hsecond.
  injection Hfirst as <- _. injection Hsecond as Hsame _.
  apply (f_equal chars) in Hsame.
  rewrite !String.list_ascii_of_string_of_list_ascii in Hsame. subst cs2.
  apply choices_inv in Hcs1 as [_ Hdraws1].
  apply choices_inv in Hcs2 as [_ Hdraws2].
  rewrite password_chars_length in Hdraws1, Hdraws2.
  revert Hdraws1 Hdraws2.
  generalize (index_draws rng random_index 52 16 g1).
  generalize (index_draws rng random_index 52 16 g2).
  induction cs1 as [|c cs IH]; intros draws2 draws1 Hdraws1 Hdraws2.
  - apply Forall2_nil_inv_l in Hdraws1 as ->.
    by apply Forall2_nil_inv_l in Hdraws2 as ->.
  - apply Forall2_cons_inv_l in Hdraws1 as (i1 & rest1 & Hi1 & Hrest1 & ->).
    apply Forall2_cons_inv_l in Hdraws2 as (i2 & rest2 & Hi2 & Hrest2 & ->).
    f_equal; [| by apply IH].
    by apply (NoDup_lookup _ _ _ c password_chars_NoDup).
Qed.

End PasswordFurther.

Lemma scripted_choices (population cs : list Ascii.ascii) :
  Forall (λ c, c ∈ population) cs →
  ∃ g, choices (list nat) scripted_index population (List.length cs) g =
         Return (cs, []).
Proof.
  induction 1 as [|c cs Hc _ [g Hg]]; simpl.
  - by exists [].
  - apply list_elem_of_lookup_1 in Hc as [i Hi].
    exists (i :: g). simpl.
    rewrite Nat.mod_small by (by eapply lookup_lt_Some).
    by rewrite Hi, Hg.
Qed.

(** X18: Every string of 16 characters of the alphabet is a password some
    sequence of draws generates: besides the length and the alphabet,
    [_generate_password] restricts nothing. *)
Theorem every_password_possible (password : string) :
  String.length password = 16 →
  (∀ c, c ∈ chars password → c ∈ chars password_chars) →
  ∃ g, _generate_password (list nat) scripted_index g =
         Return (password, []).
Proof.
  intros Hlen Hchars.
  destruct (scripted_choices (chars password_chars) (chars password))
    as [g Hg]; [by apply Forall_forall |].
  exists g. unfold _generate_password.
  rewrite <- (String.string_of_list_ascii_of_string password) in Hlen.
  rewrite length_string_of_list_ascii in Hlen.
  rewrite Hlen in Hg. rewrite Hg. simpl.
  by rewrite String.string_of_list_ascii_of_string.
Qed.

Lemma password_determines_draws_witness :
  index_draws (list nat) scripted_index 52 16 (seq 0 16) =
  index_draws (list nat) scripted_index 52 16 (seq 52 16).
Proof.
  apply (password_determines_draws (list nat) scripted_index
           (seq 0 16) (seq 52 16) [] [] "abcdefghkmnpqrst").
  - reflexivity.
  - reflexivity.
Defined.

Lemma every_password_possible_witness :
  ∃ g, _generate_password (list nat) scripted_index g =
         Return ("Aqrf2wPass9wxyzZ", []).
Proof.
  apply (every_password_possible "Aqrf2wPass9wxyzZ").
  - reflexivity.
  - intros c Hc. revert c Hc. apply Forall_forall. compute_done.
Defined.
